(** * style-producer: structured CSS values, selectors and the render job

    A shallow embedding of the parts of [style-producer] that its
    specification talks about:

    - [src/value/numeric.impl.ts] and the [Zero] class: dimensions, zero and
      [calc()] expressions with their arithmetic;
    - [src/value/value.ts]: [stypSplitPriority] and [stypValuesEqual];
    - [src/selector/selector-text.impl.ts] and [ruleSelector] of
      [src/producer/produce-basic-style.ts];
    - [renderProperties] and [clearProperties] of the same file.

    JavaScript numbers are IEEE 754 binary64 values and are embedded as
    primitive floats.  Every structured value is an immutable object; the
    only thing a tree of fields does not show is object identity, so every
    object carries the identity it received when it was allocated, and the
    code that may execute [new] runs in an allocation monad. *)

From Stdlib Require Import Floats String Ascii List Bool Arith ZArith Lia.
From Equations Require Import Equations.
Import ListNotations.

(** ** JavaScript numbers *)

Module JsNumber.

Definition number := float.

(** [x === y] on numbers: IEEE equality ([NaN] differs from itself,
    [-0] equals [0]). *)
Definition strict_eq (x y : number) : bool := PrimFloat.eqb x y.

(** [ToBoolean] on numbers: [0], [-0] and [NaN] are falsy. *)
Definition to_boolean (x : number) : bool :=
  negb (PrimFloat.eqb x 0%float || PrimFloat.is_nan x).

Lemma Prim2SF_zero : Prim2SF 0%float = S754_zero false.
Proof. reflexivity. Qed.

Lemma to_boolean_spec (x : number) :
  to_boolean x = match Prim2SF x with
                 | S754_zero _ | S754_nan => false
                 | _ => true
                 end.
Proof.
  unfold to_boolean, PrimFloat.is_nan.
  rewrite !FloatAxioms.eqb_spec, Prim2SF_zero.
  destruct (Prim2SF x) as [s| s | |s m e]; unfold SFeqb; simpl;
    try change (IntDef.Z.compare e e) with (Z.compare e e);
    try change (PosDef.Pos.compare_cont Eq m m) with (Pos.compare m m);
    rewrite ?Z.compare_refl, ?Pos.compare_refl;
    try destruct s; reflexivity.
Qed.

(** Whatever [x] is, [x * 0] is [0], [-0] or [NaN]. *)
Lemma to_boolean_mul_zero (x : number) : to_boolean (x * 0)%float = false.
Proof.
  rewrite to_boolean_spec, mul_spec, Prim2SF_zero.
  destruct (Prim2SF x); reflexivity.
Qed.

Lemma to_boolean_opp (x : number) : to_boolean (- x)%float = to_boolean x.
Proof.
  rewrite !to_boolean_spec, opp_spec.
  destruct (Prim2SF x); reflexivity.
Qed.




End JsNumber.

(** ** Allocation

    [new C(...)] gives the constructed object the next unused identity.
    A computation that may allocate threads the next identity through. *)

Module Alloc.

Definition M (A : Type) : Type := nat -> A * nat.

Definition ret {A} (a : A) : M A := fun n => (a, n).

Definition bind {A B} (m : M A) (f : A -> M B) : M B :=
  fun n => let (a, n') := m n in f a n'.

Definition fresh : M nat := fun n => (n, S n).

(** The object a computation returns, and how many objects it allocated. *)
Definition result {A} (m : M A) (n : nat) : A := fst (m n).
Definition allocated {A} (m : M A) (n : nat) : nat := snd (m n) - n.

End Alloc.

Import Alloc.

Notation "x <- c1 ;; c2" := (bind c1 (fun x => c2))
  (at level 61, c1 at next level, right associativity).

(** ** Structured numeric values ([numeric.impl.ts], class [Zero]) *)

Module Value.

Import JsNumber.

(** [priority: 'important' | undefined]. *)
Inductive Priority : Type :=
| PUsual      (* undefined *)
| PImportant. (* 'important' *)

Definition Priority_eqb (p q : Priority) : bool :=
  match p, q with
  | PUsual, PUsual | PImportant, PImportant => true
  | _, _ => false
  end.

(** [ZeroByPriority]: the two zero objects of a kind, constructed once
    together with it.  The record keeps the identities of the kind and of
    both objects. *)
Record ZeroByPriority : Type := {
  zbp_dim : nat;
  zbp_usual : nat;
  zbp_important : nat
}.

(** [StypDimension.Kind]: the result of [unitlessZeroDimensionKind()] or of
    [unitZeroDimensionKind(zeroUnit)]. *)
Inductive Kind : Type :=
| UnitlessZero (z : ZeroByPriority)
| UnitZero (kid : nat) (zeroUnit : string) (zid : nat).

Inductive AddSubOp : Type := OpAdd | OpSub.  (* '+' | '-' *)
Inductive MulDivOp : Type := OpMul | OpDiv.  (* '*' | '/' *)

(** [StypNumeric]: [Zero | StypDimension | StypAddSub | StypMulDiv].
    [oid] is the identity of the object. *)
Inductive StypNumeric : Type :=
| Zero (_byPriority : ZeroByPriority) (priority : Priority)
| StypDimension (oid : nat) (val : number) (unit : string)
                (dim : Kind) (priority : Priority)
| StypAddSub (oid : nat) (left : StypNumeric) (op : AddSubOp)
             (right : StypNumeric) (dim : Kind) (priority : Priority)
| StypMulDiv (oid : nat) (left : StypNumeric) (op : MulDivOp)
             (right : number) (dim : Kind) (priority : Priority).

(** [StypValue]: scalars and structured values. *)
Inductive StypValue : Type :=
| VString (s : string)
| VNumber (n : number)
| VBoolean (b : bool)
| VUndefined
| VStruct (v : StypNumeric).

Inductive StypType : Type := type_0 | type_dimension | type_calc.

Definition type_of (v : StypNumeric) : StypType :=
  match v with
  | Zero _ _ => type_0
  | StypDimension _ _ _ _ _ => type_dimension
  | StypAddSub _ _ _ _ _ _ | StypMulDiv _ _ _ _ _ _ => type_calc
  end.

Definition priority_of (v : StypNumeric) : Priority :=
  match v with
  | Zero _ p | StypDimension _ _ _ _ p
  | StypAddSub _ _ _ _ _ p | StypMulDiv _ _ _ _ _ p => p
  end.

(** [get dim()]; for [Zero] it is [this._byPriority.dim]. *)
Definition dim_of (v : StypNumeric) : Kind :=
  match v with
  | Zero z _ => UnitlessZero z
  | StypDimension _ _ _ d _ | StypAddSub _ _ _ _ d _
  | StypMulDiv _ _ _ _ d _ => d
  end.

(** Identity of an object: the two [Zero] objects are those the
    [ZeroByPriority] constructor made. *)
Definition oid_of (v : StypNumeric) : nat :=
  match v with
  | Zero z PUsual => zbp_usual z
  | Zero z PImportant => zbp_important z
  | StypDimension o _ _ _ _ | StypAddSub o _ _ _ _ _
  | StypMulDiv o _ _ _ _ _ => o
  end.

(** [a === b] on objects. *)
Definition same_object (a b : StypNumeric) : bool :=
  Nat.eqb (oid_of a) (oid_of b).

(** [ZeroByPriority.get]: [priority ? this.important : this.usual]. *)
Definition ZeroByPriority_get (z : ZeroByPriority) (priority : Priority)
  : StypNumeric :=
  match priority with
  | PImportant => Zero z PImportant
  | PUsual => Zero z PUsual
  end.

(** [get zero()] of a kind: [newStypZero(dim)] is
    [new ZeroByPriority(dim).usual]; a unit-zero kind has
    [new StypDimension(0, zeroUnit, { dim })]. *)
Definition Kind_zero (dim : Kind) : StypNumeric :=
  match dim with
  | UnitlessZero z => Zero z PUsual
  | UnitZero _ zeroUnit zid => StypDimension zid 0%float zeroUnit dim PUsual
  end.

(** [new StypDimension(val, unit, { dim, priority })]. *)
Definition new_StypDimension (val : number) (unit : string) (dim : Kind)
           (priority : Priority) : M StypNumeric :=
  oid <- fresh ;; ret (StypDimension oid val unit dim priority).

(** [prioritize(priority)] of the four classes.  The constructors of the
    calc classes call [right.usual()] (argument of [super]), allocate, then
    [left.usual()]. *)
Fixpoint prioritize (v : StypNumeric) (priority : Priority)
  : M StypNumeric :=
  match v with
  | Zero z _ => ret (ZeroByPriority_get z priority)
  | StypDimension _ val unit dim p =>
      if Priority_eqb p priority then ret v
      else new_StypDimension val unit dim priority
  | StypAddSub _ l op r dim p =>
      if Priority_eqb p priority then ret v
      else r' <- prioritize r PUsual ;;
           oid <- fresh ;;
           l' <- prioritize l PUsual ;;
           ret (StypAddSub oid l' op r' dim priority)
  | StypMulDiv _ l op r dim p =>
      if Priority_eqb p priority then ret v
      else oid <- fresh ;;
           l' <- prioritize l PUsual ;;
           ret (StypMulDiv oid l' op r dim priority)
  end.

Definition usual (v : StypNumeric) : M StypNumeric := prioritize v PUsual.
Definition important (v : StypNumeric) : M StypNumeric :=
  prioritize v PImportant.

(** [new StypAddSub(left, op, right, { dim, priority })]. *)
Definition new_StypAddSub (left : StypNumeric) (op : AddSubOp)
           (right : StypNumeric) (dim : Kind) (priority : Priority)
  : M StypNumeric :=
  r' <- usual right ;;
  oid <- fresh ;;
  l' <- usual left ;;
  ret (StypAddSub oid l' op r' dim priority).

(** [new StypMulDiv(left, op, right, { dim, priority })]. *)
Definition new_StypMulDiv (left : StypNumeric) (op : MulDivOp)
           (right : number) (dim : Kind) (priority : Priority)
  : M StypNumeric :=
  oid <- fresh ;;
  l' <- usual left ;;
  ret (StypMulDiv oid l' op right dim priority).

(** [stypDimension(val, unit, opts)]:
    [val ? new StypDimension(val, unit, opts)
         : opts.dim.zero.prioritize(opts && opts.priority)]. *)
Definition stypDimension (val : number) (unit : string) (dim : Kind)
           (priority : Priority) : M StypNumeric :=
  if to_boolean val then new_StypDimension val unit dim priority
  else prioritize (Kind_zero dim) priority.

(** [stypAddSub(left, op, right)]:
    [right.type === '0' ? left : new StypAddSub(left, op, right, left)]. *)
Definition stypAddSub (left : StypNumeric) (op : AddSubOp)
           (right : StypNumeric) : M StypNumeric :=
  match type_of right with
  | type_0 => ret left
  | _ => new_StypAddSub left op right (dim_of left) (priority_of left)
  end.

(** [stypMul(left, right)] and [stypDiv(left, right)]. *)
Definition stypMul (left : StypNumeric) (right : number) : M StypNumeric :=
  if negb (to_boolean right)
  then prioritize (Kind_zero (dim_of left)) (priority_of left)
  else if strict_eq right 1%float
       then prioritize left (priority_of left)
       else new_StypMulDiv left OpMul right (dim_of left) (priority_of left).

Definition stypDiv (left : StypNumeric) (right : number) : M StypNumeric :=
  if strict_eq right 1%float
  then prioritize left (priority_of left)
  else new_StypMulDiv left OpDiv right (dim_of left) (priority_of left).

(** [negate()]. *)
Fixpoint negate (v : StypNumeric) : M StypNumeric :=
  match v with
  | Zero _ _ => ret v
  | StypDimension _ val unit dim p => stypDimension (- val)%float unit dim p
  | StypAddSub _ l OpSub r dim p => new_StypAddSub r OpSub l dim p
  | StypAddSub _ l OpAdd r dim p =>
      l' <- negate l ;; new_StypAddSub l' OpSub r dim p
  | StypMulDiv _ l op r dim p => new_StypMulDiv l op (- r)%float dim p
  end.

(** [add(addendum)] and [sub(subtrahend)]. *)
Definition add (this addendum : StypNumeric) : M StypNumeric :=
  match this with
  | Zero _ p => prioritize addendum p
  | StypDimension _ val unit dim p =>
      match addendum with
      | StypDimension _ val' unit' _ _ =>
          if String.eqb unit unit'
          then stypDimension (val + val')%float unit dim p
          else stypAddSub this OpAdd addendum
      | _ => stypAddSub this OpAdd addendum
      end
  | _ => stypAddSub this OpAdd addendum
  end.

Definition sub (this subtrahend : StypNumeric) : M StypNumeric :=
  match this with
  | Zero _ p => s' <- negate subtrahend ;; prioritize s' p
  | StypDimension _ val unit dim p =>
      match subtrahend with
      | StypDimension _ val' unit' _ _ =>
          if String.eqb unit unit'
          then stypDimension (val - val')%float unit dim p
          else stypAddSub this OpSub subtrahend
      | _ => stypAddSub this OpSub subtrahend
      end
  | _ => stypAddSub this OpSub subtrahend
  end.

(** [mul(multiplier)] and [div(divisor)]. *)
Definition mul (this : StypNumeric) (multiplier : number) : M StypNumeric :=
  match this with
  | Zero _ _ => ret this
  | StypDimension _ val unit dim p =>
      if strict_eq multiplier 1%float then ret this
      else stypDimension (val * multiplier)%float unit dim p
  | StypAddSub _ _ _ _ _ _ => stypMul this multiplier
  | StypMulDiv _ l op r _ p =>
      v <- match op with
           | OpMul => stypMul l (r * multiplier)%float
           | OpDiv => stypDiv l (r / multiplier)%float
           end ;;
      prioritize v p
  end.

Definition div (this : StypNumeric) (divisor : number) : M StypNumeric :=
  match this with
  | Zero _ _ => ret this
  | StypDimension _ val unit dim p =>
      if strict_eq divisor 1%float then ret this
      else stypDimension (val / divisor)%float unit dim p
  | StypAddSub _ _ _ _ _ _ => stypDiv this divisor
  | StypMulDiv _ l op r _ p =>
      v <- match op with
           | OpDiv => stypDiv l (r * divisor)%float
           | OpMul => stypMul l (r / divisor)%float
           end ;;
      prioritize v p
  end.

(** The two kind constructors and [Kind.of(val, unit)]. *)
Definition unitlessZeroDimensionKind : M Kind :=
  d <- fresh ;; u <- fresh ;; i <- fresh ;;
  ret (UnitlessZero {| zbp_dim := d; zbp_usual := u; zbp_important := i |}).

Definition unitZeroDimensionKind (zeroUnit : string) : M Kind :=
  d <- fresh ;; z <- fresh ;; ret (UnitZero d zeroUnit z).

Definition Kind_of (dim : Kind) (val : number) (unit : string)
  : M StypNumeric :=
  match dim with
  | UnitlessZero _ =>
      if to_boolean val then new_StypDimension val unit dim PUsual
      else ret (Kind_zero dim)
  | UnitZero _ _ _ => new_StypDimension val unit dim PUsual
  end.

(** [is(other)] of the three classes, with [stypValuesEqual] unfolded at
    the right operand of a calc node ([first === second], else
    [first.is(second)] for an object, else [false] for two numbers). *)
Fixpoint styp_is (this : StypNumeric) (other : StypValue) : bool :=
  match this with
  | Zero _ p =>
      match other with
      | VStruct o =>
          same_object this o
          || match type_of o with
             | type_0 => Priority_eqb (priority_of o) p
             | _ => false
             end
      | VNumber n => if strict_eq n 0%float then Priority_eqb p PUsual
                     else false
      | VString s =>
          if String.eqb s "0" then Priority_eqb p PUsual
          else if String.eqb s "0 !important" then Priority_eqb p PImportant
               else false
      | _ => false
      end
  | StypDimension _ val unit _ p =>
      match other with
      | VStruct o =>
          same_object this o
          || match o with
             | StypDimension _ val' unit' _ p' =>
                 String.eqb unit unit' && strict_eq val val'
                 && Priority_eqb p p'
             | _ => false
             end
      | _ => false
      end
  | StypAddSub _ l op r _ p =>
      match other with
      | VStruct o =>
          same_object this o
          || match o with
             | StypAddSub _ l' op' r' _ p' =>
                 match op, op' with
                 | OpAdd, OpAdd | OpSub, OpSub => true
                 | _, _ => false
                 end
                 && styp_is l (VStruct l')
                 && (same_object r r' || styp_is r (VStruct r'))
                 && Priority_eqb p p'
             | _ => false
             end
      | _ => false
      end
  | StypMulDiv _ l op r _ p =>
      match other with
      | VStruct o =>
          same_object this o
          || match o with
             | StypMulDiv _ l' op' r' _ p' =>
                 match op, op' with
                 | OpMul, OpMul | OpDiv, OpDiv => true
                 | _, _ => false
                 end
                 && styp_is l (VStruct l')
                 && strict_eq r r'
                 && Priority_eqb p p'
             | _ => false
             end
      | _ => false
      end
  end.

(** [first === second] on property values. *)
Definition strict_equals (first second : StypValue) : bool :=
  match first, second with
  | VString a, VString b => String.eqb a b
  | VNumber a, VNumber b => strict_eq a b
  | VBoolean a, VBoolean b => Bool.eqb a b
  | VUndefined, VUndefined => true
  | VStruct a, VStruct b => same_object a b
  | _, _ => false
  end.

(** [stypValuesEqual(first, second)]. *)
Definition stypValuesEqual (first second : StypValue) : bool :=
  if strict_equals first second then true
  else match first, second with
       | VStruct a, _ => styp_is a second
       | _, VStruct b => styp_is b first
       | _, _ => false
       end.

(** *** [value.ts]: [stypSplitPriority]

    Strings are sequences of code units below 256. *)

(** Modelled from the spec: the constant [IMPORTANT_CSS_SUFFIX] of
    [src/internal], which is not among the sources; the specification
    gives it as the literal suffix " !important". *)
Definition IMPORTANT_CSS_SUFFIX : string := " !important".

(** [s.endsWith(suffix)]. *)
Definition endsWith (s suffix : string) : bool :=
  (String.length suffix <=? String.length s)
  && String.eqb
       (substring (String.length s - String.length suffix)
                  (String.length suffix) s)
       suffix.

(** White space and line terminators of ECMAScript among the code units
    below 256: TAB, LF, VT, FF, CR, SP and NBSP. *)
Definition is_white_space (c : ascii) : bool :=
  match nat_of_ascii c with
  | 9 | 10 | 11 | 12 | 13 | 32 | 160 => true
  | _ => false
  end.

Fixpoint trimStart (s : string) : string :=
  match s with
  | EmptyString => EmptyString
  | String c s' => if is_white_space c then trimStart s' else s
  end.

Fixpoint trimEnd (s : string) : string :=
  match s with
  | EmptyString => EmptyString
  | String c s' =>
      match trimEnd s' with
      | EmptyString =>
          if is_white_space c then EmptyString else String c EmptyString
      | t => String c t
      end
  end.

(** [s.trim()]. *)
Definition trim (s : string) : string := trimEnd (trimStart s).

(** The tuple [readonly [T?, 'important'?]]. *)
Inductive SplitPriority : Type :=
| Split_none                       (* [] *)
| Split_value (v : StypValue)      (* [value] *)
| Split_important (v : StypValue). (* [value, 'important'] *)

Definition stypSplitPriority (value : StypValue) : M SplitPriority :=
  match value with
  | VUndefined => ret Split_none
  | VStruct v =>
      match priority_of v with
      | PImportant => u <- usual v ;; ret (Split_important (VStruct u))
      | PUsual => ret (Split_value value)
      end
  | VString s =>
      if endsWith s IMPORTANT_CSS_SUFFIX
      then ret (Split_important
                  (VString
                     (trim (substring 0
                              (String.length s
                               - String.length IMPORTANT_CSS_SUFFIX) s))))
      else ret (Split_value value)
  | _ => ret (Split_value value)
  end.

(** *** Well-formed values

    What the constructors establish and every operation keeps: within one
    dimension kind, the operands stored in a calc node have usual
    priority. *)

Definition ZeroByPriority_eqb (a b : ZeroByPriority) : bool :=
  Nat.eqb (zbp_dim a) (zbp_dim b)
  && Nat.eqb (zbp_usual a) (zbp_usual b)
  && Nat.eqb (zbp_important a) (zbp_important b).

Definition Kind_eqb (a b : Kind) : bool :=
  match a, b with
  | UnitlessZero z, UnitlessZero z' => ZeroByPriority_eqb z z'
  | UnitZero k u z, UnitZero k' u' z' =>
      Nat.eqb k k' && String.eqb u u' && Nat.eqb z z'
  | _, _ => false
  end.

Fixpoint wf (k : Kind) (v : StypNumeric) : bool :=
  match v with
  | Zero z _ => Kind_eqb (UnitlessZero z) k
  | StypDimension _ _ _ d _ => Kind_eqb d k
  | StypAddSub _ l _ r d _ =>
      Kind_eqb d k && wf k l && wf k r
      && Priority_eqb (priority_of l) PUsual
      && Priority_eqb (priority_of r) PUsual
  | StypMulDiv _ l _ _ d _ =>
      Kind_eqb d k && wf k l && Priority_eqb (priority_of l) PUsual
  end.

(** Nesting depth of calc nodes. *)
Fixpoint calc_depth (v : StypNumeric) : nat :=
  match v with
  | Zero _ _ | StypDimension _ _ _ _ _ => 0
  | StypAddSub _ l _ r _ _ => S (Nat.max (calc_depth l) (calc_depth r))
  | StypMulDiv _ l _ _ _ _ => S (calc_depth l)
  end.

(** *** Sample values, built through the public operations *)

Module Samples.
Open Scope float_scope.

(** A unitless-zero kind (lengths) made first, a unit-zero kind
    (angles) made next. *)
Definition length_kind : Kind := result unitlessZeroDimensionKind 0.
Definition angle_kind : Kind := result (unitZeroDimensionKind "deg") 3.

Definition px12 : StypNumeric := result (Kind_of length_kind 12 "px") 5.
Definition px3 : StypNumeric := result (Kind_of length_kind 3 "px") 6.
Definition em2 : StypNumeric := result (Kind_of length_kind 2 "em") 7.
Definition rad1 : StypNumeric := result (Kind_of angle_kind 1 "rad") 8.
(** [calc(12px + 2em)]. *)
Definition px12_plus_em2 : StypNumeric := result (add px12 em2) 9.
Definition length_zero : StypNumeric := Kind_zero length_kind.
End Samples.

(** *** Basic facts *)

Lemma Priority_eqb_refl (p : Priority) : Priority_eqb p p = true.
Proof. destruct p; reflexivity. Qed.

Lemma Priority_eqb_eq (p q : Priority) : Priority_eqb p q = true -> p = q.
Proof. destruct p, q; simpl; congruence. Qed.

Lemma ZeroByPriority_eqb_eq (a b : ZeroByPriority) :
  ZeroByPriority_eqb a b = true -> a = b.
Proof.
  destruct a, b; unfold ZeroByPriority_eqb; simpl; intros H.
  apply andb_prop in H as [H H3]. apply andb_prop in H as [H1 H2].
  apply Nat.eqb_eq in H1, H2, H3. congruence.
Qed.

Lemma Kind_eqb_eq (a b : Kind) : Kind_eqb a b = true -> a = b.
Proof.
  destruct a, b; simpl; intros H; try discriminate.
  - f_equal. now apply ZeroByPriority_eqb_eq.
  - apply andb_prop in H as [H H3]. apply andb_prop in H as [H1 H2].
    apply Nat.eqb_eq in H1, H3. apply String.eqb_eq in H2. congruence.
Qed.

Lemma Kind_eqb_refl (a : Kind) : Kind_eqb a a = true.
Proof.
  destruct a as [[d u i]|k u z]; simpl; unfold ZeroByPriority_eqb; simpl;
    now rewrite ?Nat.eqb_refl, ?String.eqb_refl.
Qed.

(** Unfolding one step of the allocation monad. *)
Ltac alloc_step :=
  unfold new_StypAddSub, new_StypMulDiv, new_StypDimension, usual,
    important, result, allocated, bind, fresh, ret in *; simpl in *.

(** Naming the result of a sub-computation found in the goal. *)
Ltac alloc_destruct :=
  match goal with
  | |- context [let (_, _) := ?m ?n in _] =>
      let r := fresh "r" in
      let k := fresh "k" in
      let E := fresh "E" in
      destruct (m n) as [r k] eqn:E; simpl in *
  end.

(** [prioritize] with the priority the value already has returns the
    receiver: nothing is allocated. *)
Lemma prioritize_same (v : StypNumeric) (n : nat) :
  prioritize v (priority_of v) n = (v, n).
Proof.
  destruct v as [z p|o val u d p|o l op r d p|o l op r d p]; simpl;
    rewrite ?Priority_eqb_refl; try reflexivity.
  destruct p; reflexivity.
Qed.

Lemma usual_of_usual (v : StypNumeric) (n : nat) :
  priority_of v = PUsual -> prioritize v PUsual n = (v, n).
Proof. intros H. rewrite <- H. apply prioritize_same. Qed.

Lemma prioritize_priority (v : StypNumeric) (p : Priority) (n : nat) :
  priority_of (fst (prioritize v p n)) = p.
Proof.
  destruct v as [z q|o val u d q|o l op r d q|o l op r d q]; simpl.
  - destruct p; reflexivity.
  - destruct (Priority_eqb q p) eqn:E; simpl; [now apply Priority_eqb_eq|].
    reflexivity.
  - destruct (Priority_eqb q p) eqn:E; simpl; [now apply Priority_eqb_eq|].
    alloc_step. repeat alloc_destruct. reflexivity.
  - destruct (Priority_eqb q p) eqn:E; simpl; [now apply Priority_eqb_eq|].
    alloc_step. repeat alloc_destruct. reflexivity.
Qed.

Lemma prioritize_dim (v : StypNumeric) (p : Priority) (n : nat) :
  dim_of (fst (prioritize v p n)) = dim_of v.
Proof.
  destruct v as [z q|o val u d q|o l op r d q|o l op r d q]; simpl.
  - destruct p; reflexivity.
  - destruct (Priority_eqb q p); reflexivity.
  - destruct (Priority_eqb q p); simpl; [reflexivity|].
    alloc_step. repeat alloc_destruct. reflexivity.
  - destruct (Priority_eqb q p); simpl; [reflexivity|].
    alloc_step. repeat alloc_destruct. reflexivity.
Qed.

Lemma prioritize_type (v : StypNumeric) (p : Priority) (n : nat) :
  type_of (fst (prioritize v p n)) = type_of v.
Proof.
  destruct v as [z q|o val u d q|o l op r d q|o l op r d q]; simpl.
  - destruct p; reflexivity.
  - destruct (Priority_eqb q p); reflexivity.
  - destruct (Priority_eqb q p); simpl; [reflexivity|].
    alloc_step. repeat alloc_destruct. reflexivity.
  - destruct (Priority_eqb q p); simpl; [reflexivity|].
    alloc_step. repeat alloc_destruct. reflexivity.
Qed.

(** Changing the priority never changes the nesting of calc nodes. *)
Lemma prioritize_calc_depth (v : StypNumeric) :
  forall p n, calc_depth (fst (prioritize v p n)) = calc_depth v.
Proof.
  induction v as [z q|o val u d q|o l IHl op r IHr d q|o l IHl op r d q];
    intros p n; simpl.
  - destruct p; reflexivity.
  - destruct (Priority_eqb q p); reflexivity.
  - destruct (Priority_eqb q p); simpl; [reflexivity|].
    alloc_step.
    specialize (IHr PUsual n).
    destruct (prioritize r PUsual n) as [r' n1]; simpl in *.
    specialize (IHl PUsual (S n1)).
    destruct (prioritize l PUsual (S n1)) as [l' n2]; simpl in *.
    congruence.
  - destruct (Priority_eqb q p); simpl; [reflexivity|].
    alloc_step.
    specialize (IHl PUsual (S n)).
    destruct (prioritize l PUsual (S n)) as [l' n2]; simpl in *.
    congruence.
Qed.

(** Well-formedness is kept by [prioritize]. *)
Lemma wf_prioritize (k : Kind) (v : StypNumeric) :
  forall p n, wf k v = true -> wf k (fst (prioritize v p n)) = true.
Proof.
  destruct v as [z q|o val u d q|o l op r d q|o l op r d q];
    intros p n H; simpl in *.
  - destruct p; exact H.
  - destruct (Priority_eqb q p); exact H.
  - destruct (Priority_eqb q p); simpl; [exact H|].
    repeat (apply andb_prop in H as [H ?]).
    apply Priority_eqb_eq in H0, H1.
    alloc_step. rewrite (usual_of_usual r n H0). simpl.
    rewrite (usual_of_usual l (S n) H1). simpl.
    rewrite H, H2, H3, H0, H1. reflexivity.
  - destruct (Priority_eqb q p); simpl; [exact H|].
    repeat (apply andb_prop in H as [H ?]).
    apply Priority_eqb_eq in H0.
    alloc_step. rewrite (usual_of_usual l (S n) H0). simpl.
    rewrite H, H1, H0. reflexivity.
Qed.

(** *** The constructors and operations keep values well-formed *)

Lemma wf_dim (k : Kind) (v : StypNumeric) : wf k v = true -> dim_of v = k.
Proof.
  destruct v; simpl; intros H;
    repeat (apply andb_prop in H as [H ?]); now apply Kind_eqb_eq.
Qed.

Lemma wf_Kind_zero (k : Kind) : wf k (Kind_zero k) = true.
Proof. destruct k; unfold Kind_zero, wf; apply Kind_eqb_refl. Qed.

Lemma wf_stypDimension (k : Kind) val unit p n :
  wf k (fst (stypDimension val unit k p n)) = true.
Proof.
  unfold stypDimension. destruct (to_boolean val).
  - simpl. apply Kind_eqb_refl.
  - apply wf_prioritize, wf_Kind_zero.
Qed.

Lemma wf_new_StypAddSub (k : Kind) l op r p n :
  wf k l = true -> wf k r = true ->
  wf k (fst (new_StypAddSub l op r k p n)) = true.
Proof.
  intros Hl Hr. alloc_step.
  pose proof (wf_prioritize k r PUsual n Hr) as Wr.
  pose proof (prioritize_priority r PUsual n) as Pr.
  destruct (prioritize r PUsual n) as [r' n1]; simpl in *.
  pose proof (wf_prioritize k l PUsual (S n1) Hl) as Wl.
  pose proof (prioritize_priority l PUsual (S n1)) as Pl.
  destruct (prioritize l PUsual (S n1)) as [l' n2]; simpl in *.
  now rewrite Kind_eqb_refl, Wl, Wr, Pl, Pr.
Qed.

Lemma wf_new_StypMulDiv (k : Kind) l op r p n :
  wf k l = true -> wf k (fst (new_StypMulDiv l op r k p n)) = true.
Proof.
  intros Hl. alloc_step.
  pose proof (wf_prioritize k l PUsual (S n) Hl) as Wl.
  pose proof (prioritize_priority l PUsual (S n)) as Pl.
  destruct (prioritize l PUsual (S n)) as [l' n2]; simpl in *.
  now rewrite Kind_eqb_refl, Wl, Pl.
Qed.

Lemma wf_parts_AddSub k o l op r d p :
  wf k (StypAddSub o l op r d p) = true ->
  d = k /\ wf k l = true /\ wf k r = true
  /\ priority_of l = PUsual /\ priority_of r = PUsual.
Proof.
  simpl. intros H. repeat (apply andb_prop in H as [H ?]).
  repeat split; auto using Kind_eqb_eq, Priority_eqb_eq.
Qed.

Lemma wf_parts_MulDiv k o l op r d p :
  wf k (StypMulDiv o l op r d p) = true ->
  d = k /\ wf k l = true /\ priority_of l = PUsual.
Proof.
  simpl. intros H. repeat (apply andb_prop in H as [H ?]).
  repeat split; auto using Kind_eqb_eq, Priority_eqb_eq.
Qed.

Lemma wf_negate (k : Kind) (v : StypNumeric) :
  forall n, wf k v = true -> wf k (fst (negate v n)) = true.
Proof.
  induction v as [z q|o val u d q|o l IHl op r IHr d q|o l IHl op r d q];
    intros n H.
  - exact H.
  - simpl in *. apply Kind_eqb_eq in H. subst d. apply wf_stypDimension.
  - apply wf_parts_AddSub in H as (-> & Hl & Hr & _ & _).
    destruct op; simpl.
    + unfold bind. specialize (IHl n Hl).
      destruct (negate l n) as [l' n1]; simpl in *.
      now apply wf_new_StypAddSub.
    + now apply wf_new_StypAddSub.
  - apply wf_parts_MulDiv in H as (-> & Hl & _).
    simpl. now apply wf_new_StypMulDiv.
Qed.

Lemma wf_stypAddSub (k : Kind) l op r n :
  wf k l = true -> wf k r = true ->
  wf k (fst (stypAddSub l op r n)) = true.
Proof.
  intros Hl Hr. unfold stypAddSub.
  rewrite (wf_dim _ _ Hl).
  destruct (type_of r); try exact Hl; now apply wf_new_StypAddSub.
Qed.

Lemma wf_stypMul (k : Kind) l r n :
  wf k l = true -> wf k (fst (stypMul l r n)) = true.
Proof.
  intros Hl. unfold stypMul. rewrite (wf_dim _ _ Hl).
  destruct (negb (to_boolean r)).
  - apply wf_prioritize, wf_Kind_zero.
  - destruct (strict_eq r 1%float).
    + now apply wf_prioritize.
    + now apply wf_new_StypMulDiv.
Qed.

Lemma wf_stypDiv (k : Kind) l r n :
  wf k l = true -> wf k (fst (stypDiv l r n)) = true.
Proof.
  intros Hl. unfold stypDiv. rewrite (wf_dim _ _ Hl).
  destruct (strict_eq r 1%float).
  - now apply wf_prioritize.
  - now apply wf_new_StypMulDiv.
Qed.

Lemma wf_add (k : Kind) a b n :
  wf k a = true -> wf k b = true -> wf k (fst (add a b n)) = true.
Proof.
  intros Ha Hb.
  destruct a as [z q|o val u d q|o l op r d q|o l op r d q]; simpl.
  - now apply wf_prioritize.
  - destruct b as [z' q'|o' val' u' d' q'|? ? ? ? ? ?|? ? ? ? ? ?];
      try (now apply wf_stypAddSub).
    destruct (String.eqb u u'); [|now apply wf_stypAddSub].
    simpl in Ha. apply Kind_eqb_eq in Ha. subst d. apply wf_stypDimension.
  - now apply wf_stypAddSub.
  - now apply wf_stypAddSub.
Qed.

Lemma wf_sub (k : Kind) a b n :
  wf k a = true -> wf k b = true -> wf k (fst (sub a b n)) = true.
Proof.
  intros Ha Hb.
  destruct a as [z q|o val u d q|o l op r d q|o l op r d q]; simpl.
  - unfold bind. pose proof (wf_negate k b n Hb) as W.
    destruct (negate b n) as [b' n1]; simpl in *. now apply wf_prioritize.
  - destruct b as [z' q'|o' val' u' d' q'|? ? ? ? ? ?|? ? ? ? ? ?];
      try (now apply wf_stypAddSub).
    destruct (String.eqb u u'); [|now apply wf_stypAddSub].
    simpl in Ha. apply Kind_eqb_eq in Ha. subst d. apply wf_stypDimension.
  - now apply wf_stypAddSub.
  - now apply wf_stypAddSub.
Qed.

Lemma wf_mul (k : Kind) v m n :
  wf k v = true -> wf k (fst (mul v m n)) = true.
Proof.
  intros H.
  destruct v as [z q|o val u d q|o l op r d q|o l op r d q]; simpl.
  - exact H.
  - destruct (strict_eq m 1%float); [exact H|].
    simpl in H. apply Kind_eqb_eq in H. subst d. apply wf_stypDimension.
  - now apply wf_stypMul.
  - apply wf_parts_MulDiv in H as (-> & Hl & _). unfold bind.
    destruct op.
    + pose proof (wf_stypMul k l (r * m)%float n Hl) as W.
      destruct (stypMul l (r * m)%float n) as [v' n1]; simpl in *.
      now apply wf_prioritize.
    + pose proof (wf_stypDiv k l (r / m)%float n Hl) as W.
      destruct (stypDiv l (r / m)%float n) as [v' n1]; simpl in *.
      now apply wf_prioritize.
Qed.

Lemma wf_div (k : Kind) v m n :
  wf k v = true -> wf k (fst (div v m n)) = true.
Proof.
  intros H.
  destruct v as [z q|o val u d q|o l op r d q|o l op r d q]; simpl.
  - exact H.
  - destruct (strict_eq m 1%float); [exact H|].
    simpl in H. apply Kind_eqb_eq in H. subst d. apply wf_stypDimension.
  - now apply wf_stypDiv.
  - apply wf_parts_MulDiv in H as (-> & Hl & _). unfold bind.
    destruct op.
    + pose proof (wf_stypMul k l (r / m)%float n Hl) as W.
      destruct (stypMul l (r / m)%float n) as [v' n1]; simpl in *.
      now apply wf_prioritize.
    + pose proof (wf_stypDiv k l (r * m)%float n Hl) as W.
      destruct (stypDiv l (r * m)%float n) as [v' n1]; simpl in *.
      now apply wf_prioritize.
Qed.

Lemma wf_Kind_of (k : Kind) val unit n :
  wf k (fst (Kind_of k val unit n)) = true.
Proof.
  destruct k; unfold Kind_of.
  - destruct (to_boolean val); unfold new_StypDimension, Kind_zero, bind,
      fresh, ret, fst, wf; apply Kind_eqb_refl.
  - unfold new_StypDimension, bind, fresh, ret, fst, wf.
    apply Kind_eqb_refl.
Qed.

(** *** Addition and subtraction *)

(** Both operands are plain dimensions with identical units. *)
Definition same_unit_dimensions (a b : StypNumeric) : bool :=
  match a, b with
  | StypDimension _ _ u _ _, StypDimension _ _ u' _ _ => String.eqb u u'
  | _, _ => false
  end.

Lemma stypAddSub_calc (a b : StypNumeric) (op : AddSubOp) (n : nat) :
  type_of b <> type_0 ->
  stypAddSub a op b n
  = (let (r, n1) := usual b n in
     let (l, n2) := usual a (S n1) in
     (StypAddSub n1 l op r (dim_of a) (priority_of a), n2)).
Proof.
  intros Hb. unfold stypAddSub.
  destruct (type_of b); [congruence| |]; alloc_step;
    repeat alloc_destruct; reflexivity.
Qed.

(** C3 (as the code has it): [add] and [sub] by cases.  Two plain
    dimensions with identical units give a dimension holding the sum
    (difference), or the zero of the receiver's kind with the receiver's
    priority when that number is falsy (0, -0 or NaN).  A zero operand on
    the right gives the receiver itself; a zero receiver gives the operand
    (negated for [sub]) with the receiver's priority.  Every remaining pair
    gives a calc node over [a.usual()] and [b.usual()] with the kind and
    priority of [a]. *)
Theorem add_sub_cases (a b : StypNumeric) (n : nat) :
  (forall oa va u da pa ob vb db pb,
      a = StypDimension oa va u da pa ->
      b = StypDimension ob vb u db pb ->
      add a b n
      = (if to_boolean (va + vb)%float
         then (StypDimension n (va + vb)%float u da pa, S n)
         else prioritize (Kind_zero da) pa n)
      /\ sub a b n
         = (if to_boolean (va - vb)%float
            then (StypDimension n (va - vb)%float u da pa, S n)
            else prioritize (Kind_zero da) pa n))
  /\ (type_of a <> type_0 -> type_of b = type_0 ->
      add a b n = (a, n) /\ sub a b n = (a, n))
  /\ (type_of a = type_0 ->
      add a b n = prioritize b (priority_of a) n
      /\ sub a b n
         = (let (b', n1) := negate b n in prioritize b' (priority_of a) n1))
  /\ (type_of a <> type_0 -> type_of b <> type_0 ->
      same_unit_dimensions a b = false ->
      add a b n
      = (let (r, n1) := usual b n in
         let (l, n2) := usual a (S n1) in
         (StypAddSub n1 l OpAdd r (dim_of a) (priority_of a), n2))
      /\ sub a b n
         = (let (r, n1) := usual b n in
            let (l, n2) := usual a (S n1) in
            (StypAddSub n1 l OpSub r (dim_of a) (priority_of a), n2))
      /\ type_of (fst (add a b n)) = type_calc
      /\ type_of (fst (sub a b n)) = type_calc).
Proof.
  repeat split.
  - subst a b. simpl. rewrite String.eqb_refl. unfold stypDimension.
    destruct (to_boolean (va + vb)%float); reflexivity.
  - subst a b. simpl. rewrite String.eqb_refl. unfold stypDimension.
    destruct (to_boolean (va - vb)%float); reflexivity.
  - destruct a; simpl in *; try congruence;
      destruct b; simpl in *; try congruence; reflexivity.
  - destruct a; simpl in *; try congruence;
      destruct b; simpl in *; try congruence; reflexivity.
  - destruct a; simpl in *; try congruence; reflexivity.
  - destruct a; simpl in *; try congruence; reflexivity.
  - destruct a as [? ?|? ? u ? ?|? ? ? ? ? ?|? ? ? ? ? ?]; simpl in *;
      try congruence;
      try (now apply stypAddSub_calc).
    destruct b as [? ?|? ? u' ? ?|? ? ? ? ? ?|? ? ? ? ? ?]; simpl in *;
      try congruence; try (now apply stypAddSub_calc).
    rewrite H1. now apply stypAddSub_calc.
  - destruct a as [? ?|? ? u ? ?|? ? ? ? ? ?|? ? ? ? ? ?]; simpl in *;
      try congruence;
      try (now apply stypAddSub_calc).
    destruct b as [? ?|? ? u' ? ?|? ? ? ? ? ?|? ? ? ? ? ?]; simpl in *;
      try congruence; try (now apply stypAddSub_calc).
    rewrite H1. now apply stypAddSub_calc.
  - assert (E : add a b n = stypAddSub a OpAdd b n).
    { destruct a as [? ?|? ? u ? ?|? ? ? ? ? ?|? ? ? ? ? ?]; simpl in *;
        try congruence.
      destruct b as [? ?|? ? u' ? ?|? ? ? ? ? ?|? ? ? ? ? ?]; simpl in *;
        try congruence. now rewrite H1. }
    rewrite E, stypAddSub_calc by assumption.
    repeat alloc_destruct. reflexivity.
  - assert (E : sub a b n = stypAddSub a OpSub b n).
    { destruct a as [? ?|? ? u ? ?|? ? ? ? ? ?|? ? ? ? ? ?]; simpl in *;
        try congruence.
      destruct b as [? ?|? ? u' ? ?|? ? ? ? ? ?|? ? ? ? ? ?]; simpl in *;
        try congruence. now rewrite H1. }
    rewrite E, stypAddSub_calc by assumption.
    repeat alloc_destruct. reflexivity.
Qed.

(** C3, at [12px] and [3px] of one kind: [12px + 3px] is the new dimension
    [15px], and [12px - 12px] is the kind's usual zero. *)
Lemma add_sub_cases_witness :
  add Samples.px12 Samples.px3 20
  = (StypDimension 20 15%float "px" Samples.length_kind PUsual, 21)
  /\ sub Samples.px12 Samples.px12 20 = (Samples.length_zero, 20).
Proof.
  split.
  - exact (proj1 (proj1 (add_sub_cases Samples.px12 Samples.px3 20)
                    5 12%float "px"%string Samples.length_kind PUsual
                    6 3%float Samples.length_kind PUsual
                    eq_refl eq_refl)).
  - exact (proj2 (proj1 (add_sub_cases Samples.px12 Samples.px12 20)
                    5 12%float "px"%string Samples.length_kind PUsual
                    5 12%float Samples.length_kind PUsual
                    eq_refl eq_refl)).
Defined.

(** C3 as stated fails: [12px] and the zero of its kind are not two plain
    dimensions with identical units, yet [12px + 0] and [12px - 0] are
    [12px] itself, a dimension and not a calc node. *)
Lemma add_zero_operand_is_not_calc :
  wf Samples.length_kind Samples.px12 = true
  /\ wf Samples.length_kind Samples.length_zero = true
  /\ same_unit_dimensions Samples.px12 Samples.length_zero = false
  /\ add Samples.px12 Samples.length_zero 20 = (Samples.px12, 20)
  /\ sub Samples.px12 Samples.length_zero 20 = (Samples.px12, 20)
  /\ type_of Samples.px12 = type_dimension.
Proof. repeat split. Qed.

(** C3 on concrete values: different units give a calc node over both
    operands; a sum that is not a number also collapses to the zero of the
    kind. *)
Example add_sub_examples :
  add Samples.px12 Samples.em2 20
  = (StypAddSub 20 Samples.px12 OpAdd Samples.em2 Samples.length_kind PUsual,
     21)
  /\ add (StypDimension 20 infinity "px" Samples.length_kind PUsual)
         (StypDimension 21 neg_infinity "px" Samples.length_kind PUsual) 22
     = (Samples.length_zero, 22)
  /\ add Samples.length_zero Samples.px12 20 = (Samples.px12, 20)
  /\ sub Samples.length_zero Samples.px12 20
     = (StypDimension 20 (-12)%float "px" Samples.length_kind PUsual, 21).
Proof. repeat split. Qed.

(** *** Zero *)

Lemma same_object_refl (v : StypNumeric) : same_object v v = true.
Proof. apply Nat.eqb_refl. Qed.

(** [v.is(v)] holds by the identity test every [is] starts with. *)
Lemma styp_is_same (v : StypNumeric) : styp_is v (VStruct v) = true.
Proof. destruct v; simpl; now rewrite same_object_refl. Qed.





(** The two zero objects of a kind made by [unitlessZeroDimensionKind] are
    distinct objects, allocated with the kind. *)
Lemma unitlessZeroDimensionKind_zeros (n : nat) :
  exists z,
    unitlessZeroDimensionKind n = (UnitlessZero z, n + 3)
    /\ same_object (Zero z PUsual) (Zero z PImportant) = false
    /\ Kind_zero (UnitlessZero z) = Zero z PUsual.
Proof.
  eexists. split; [|split].
  - unfold unitlessZeroDimensionKind, bind, fresh, ret.
    replace (n + 3) with (S (S (S n))) by lia. reflexivity.
  - unfold same_object. simpl. apply Nat.eqb_neq. lia.
  - reflexivity.
Qed.

(** The scalar encodings [Zero.is] accepts. *)
Definition is_scalar (other : StypValue) : bool :=
  match other with
  | VStruct _ => false
  | _ => true
  end.

Definition zero_encoding (p : Priority) (other : StypValue) : Prop :=
  match other with
  | VNumber k => p = PUsual /\ strict_eq k 0%float = true
  | VString s =>
      (p = PUsual /\ s = "0"%string)
      \/ (p = PImportant /\ s = "0 !important"%string)
  | _ => False
  end.

(** C9: on scalars, [Zero.is] holds exactly for the encodings of the
    receiver: a number equal to 0 or the string "0" for the usual zero,
    the string "0 !important" for the important zero. *)
Theorem Zero_is_scalar (z : ZeroByPriority) (p : Priority)
        (other : StypValue) :
  is_scalar other = true ->
  (styp_is (Zero z p) other = true <-> zero_encoding p other).
Proof.
  intros Hs. destruct other as [s|k|b| |v]; simpl in *; try discriminate.
  - destruct (String.eqb_spec s "0") as [->|Hn].
    + destruct p; simpl; split; intros H; try discriminate; auto.
      destruct H as [[H _]|[_ H]]; discriminate.
    + destruct (String.eqb_spec s "0 !important") as [->|Hn'].
      * destruct p; simpl; split; intros H; try discriminate; auto.
        destruct H as [[_ H]|[H _]]; discriminate.
      * split; [discriminate|]. intros [[_ H]|[_ H]]; congruence.
  - destruct (strict_eq k 0%float).
    + destruct p; simpl; split; intros H; try discriminate; auto.
      destruct H; discriminate.
    + split; [discriminate|]. intros [_ H]. discriminate.
  - split; [discriminate|]. intros [].
  - split; [discriminate|]. intros [].
Qed.

(** C9, at the usual zero: the number [0], the number [-0] and the string
    "0" are accepted. *)
Lemma Zero_is_scalar_witness :
  styp_is Samples.length_zero (VNumber 0%float) = true
  /\ styp_is Samples.length_zero (VNumber (-0)%float) = true
  /\ styp_is Samples.length_zero (VString "0") = true.
Proof.
  split; [|split; reflexivity].
  exact (proj2 (Zero_is_scalar {| zbp_dim := 0; zbp_usual := 1;
                                   zbp_important := 2 |} PUsual
                               (VNumber 0%float) eq_refl)
               (conj eq_refl eq_refl)).
Defined.

(** C9, the remaining cases of the claim on concrete scalars. *)
Example Zero_is_scalar_examples :
  let usual0 := Samples.length_zero in
  let important0 := fst (important Samples.length_zero 20) in
  styp_is usual0 (VString "0 !important") = false
  /\ styp_is important0 (VString "0 !important") = true
  /\ styp_is important0 (VNumber 0%float) = false
  /\ styp_is important0 (VString "0") = false
  /\ styp_is usual0 (VString "0px") = false
  /\ styp_is usual0 (VBoolean false) = false
  /\ styp_is usual0 VUndefined = false.
Proof. repeat split. Qed.

(** *** Negation *)

Lemma negate_priority (v : StypNumeric) (n : nat) :
  priority_of (fst (negate v n)) = priority_of v.
Proof.
  destruct v as [z q|o val u d q|o l op r d q|o l op r d q]; simpl.
  - reflexivity.
  - unfold stypDimension. destruct (to_boolean (- val)%float).
    + reflexivity.
    + apply prioritize_priority.
  - destruct op; alloc_step; repeat alloc_destruct; reflexivity.
  - alloc_step; repeat alloc_destruct; reflexivity.
Qed.

Lemma new_StypAddSub_calc_depth l op r d p n :
  calc_depth (fst (new_StypAddSub l op r d p n))
  = S (Nat.max (calc_depth l) (calc_depth r)).
Proof.
  alloc_step.
  pose proof (prioritize_calc_depth r PUsual n) as Dr.
  destruct (prioritize r PUsual n) as [r' n1]; simpl in *.
  pose proof (prioritize_calc_depth l PUsual (S n1)) as Dl.
  destruct (prioritize l PUsual (S n1)) as [l' n2]; simpl in *.
  congruence.
Qed.

Lemma new_StypMulDiv_calc_depth l op r d p n :
  calc_depth (fst (new_StypMulDiv l op r d p n)) = S (calc_depth l).
Proof.
  alloc_step.
  pose proof (prioritize_calc_depth l PUsual (S n)) as Dl.
  destruct (prioritize l PUsual (S n)) as [l' n2]; simpl in *.
  congruence.
Qed.

Lemma Kind_zero_calc_depth (k : Kind) : calc_depth (Kind_zero k) = 0.
Proof. destruct k; reflexivity. Qed.

Lemma stypDimension_calc_depth val unit d p n :
  calc_depth (fst (stypDimension val unit d p n)) = 0.
Proof.
  unfold stypDimension. destruct (to_boolean val).
  - reflexivity.
  - rewrite prioritize_calc_depth. apply Kind_zero_calc_depth.
Qed.

(** [negate] keeps the nesting depth: no wrapper is added. *)
Lemma negate_calc_depth (v : StypNumeric) :
  forall n, calc_depth (fst (negate v n)) = calc_depth v.
Proof.
  induction v as [z q|o val u d q|o l IHl op r IHr d q|o l IHl op r d q];
    intros n.
  - reflexivity.
  - simpl. apply stypDimension_calc_depth.
  - destruct op; simpl.
    + unfold bind. specialize (IHl n).
      destruct (negate l n) as [l' n1]; simpl in *.
      rewrite new_StypAddSub_calc_depth. congruence.
    + rewrite new_StypAddSub_calc_depth. now rewrite Nat.max_comm.
  - simpl. apply new_StypMulDiv_calc_depth.
Qed.

(** C6 (as the code has it): [negate] on a well-formed value.  A
    subtraction [a - b] becomes the new node [b - a] with the same kind and
    priority; an addition [a + b] becomes [a.negate() - b]; a
    multiplication or division by [r] becomes the same node with [-r]; a
    dimension with a truthy number becomes the dimension with the opposite
    number, and a dimension with a falsy number (0, -0 or NaN) becomes the
    zero of its kind with the dimension's priority.  In every case the
    nesting depth of calc nodes is unchanged. *)
Theorem negate_cases (k : Kind) (v : StypNumeric) (n : nat) :
  wf k v = true ->
  (forall o a b d p, v = StypAddSub o a OpSub b d p ->
      negate v n = (StypAddSub n b OpSub a d p, S n))
  /\ (forall o a b d p, v = StypAddSub o a OpAdd b d p ->
      negate v n
      = (let (a', n1) := negate a n in
         (StypAddSub n1 a' OpSub b d p, S n1)))
  /\ (forall o x op r d p, v = StypMulDiv o x op r d p ->
      negate v n = (StypMulDiv n x op (- r)%float d p, S n))
  /\ (forall o val u d p, v = StypDimension o val u d p ->
      to_boolean val = true ->
      negate v n = (StypDimension n (- val)%float u d p, S n))
  /\ calc_depth (fst (negate v n)) = calc_depth v
  /\ (forall o val u d p, v = StypDimension o val u d p ->
      to_boolean val = false ->
      negate v n = prioritize (Kind_zero d) p n).
Proof.
  intros W. repeat split.
  - intros o a b d p ->.
    apply wf_parts_AddSub in W as (_ & _ & _ & Pa & Pb).
    simpl. alloc_step.
    rewrite (usual_of_usual a n Pa). simpl.
    now rewrite (usual_of_usual b (S n) Pb).
  - intros o a b d p ->.
    apply wf_parts_AddSub in W as (_ & _ & _ & Pa & Pb).
    simpl. unfold bind.
    pose proof (negate_priority a n) as Pa'. rewrite Pa in Pa'.
    destruct (negate a n) as [a' n1]; simpl in *.
    alloc_step.
    rewrite (usual_of_usual b n1 Pb). simpl.
    now rewrite (usual_of_usual a' (S n1) Pa').
  - intros o x op r d p ->.
    apply wf_parts_MulDiv in W as (_ & _ & Px).
    simpl. alloc_step. now rewrite (usual_of_usual x (S n) Px).
  - intros o val u d p -> T. simpl. unfold stypDimension.
    now rewrite to_boolean_opp, T.
  - apply negate_calc_depth.
  - intros o val u d p -> T. simpl. unfold stypDimension.
    now rewrite to_boolean_opp, T.
Qed.

(** C6 as stated fails on a dimension that holds a falsy number, which a
    unit-zero kind allows: [of(0, 'rad').negate()] and
    [of(NaN, 'rad').negate()] are the kind's zero [0deg], not a dimension
    in [rad] with the opposite number. *)
Lemma negate_falsy_dimension_is_kind_zero :
  Kind_of Samples.angle_kind 0%float "rad" 20
  = (StypDimension 20 0%float "rad" Samples.angle_kind PUsual, 21)
  /\ negate (StypDimension 20 0%float "rad" Samples.angle_kind PUsual) 21
     = (StypDimension 4 0%float "deg" Samples.angle_kind PUsual, 21)
  /\ Kind_of Samples.angle_kind nan "rad" 20
     = (StypDimension 20 nan "rad" Samples.angle_kind PUsual, 21)
  /\ negate (StypDimension 20 nan "rad" Samples.angle_kind PUsual) 21
     = (StypDimension 4 0%float "deg" Samples.angle_kind PUsual, 21)
  /\ Kind_zero Samples.angle_kind
     = StypDimension 4 0%float "deg" Samples.angle_kind PUsual.
Proof. repeat split. Qed.

(** C6, at [12px - 2em]: the negation is the new node [2em - 12px]. *)
Lemma negate_cases_witness :
  negate (StypAddSub 20 Samples.px12 OpSub Samples.em2
                     Samples.length_kind PImportant) 21
  = (StypAddSub 21 Samples.em2 OpSub Samples.px12
                Samples.length_kind PImportant, 22).
Proof.
  exact (proj1 (negate_cases Samples.length_kind
                 (StypAddSub 20 Samples.px12 OpSub Samples.em2
                             Samples.length_kind PImportant) 21 eq_refl)
               20 Samples.px12 Samples.em2 Samples.length_kind PImportant
               eq_refl).
Defined.

(** C6 on concrete values: the subtraction above is what
    [12px.sub(2em).important()] builds; negating [12px + 2em] negates the
    left operand; negating [12px] gives [-12px]. *)
Example negate_examples :
  result (d <- sub Samples.px12 Samples.em2 ;; important d) 19
  = StypAddSub 20 Samples.px12 OpSub Samples.em2
               Samples.length_kind PImportant
  /\ result (negate Samples.px12_plus_em2) 20
     = StypAddSub 21
         (StypDimension 20 (-12)%float "px" Samples.length_kind PUsual)
         OpSub Samples.em2 Samples.length_kind PUsual
  /\ result (negate Samples.px12) 20
     = StypDimension 20 (-12)%float "px" Samples.length_kind PUsual.
Proof. repeat split. Qed.

(** *** Multiplication and division by a number *)

Definition is_MulDiv (v : StypNumeric) : bool :=
  match v with
  | StypMulDiv _ _ _ _ _ _ => true
  | _ => false
  end.

Lemma stypMul_calc_depth l r n :
  calc_depth (fst (stypMul l r n)) <= S (calc_depth l).
Proof.
  unfold stypMul. destruct (negb (to_boolean r)).
  - rewrite prioritize_calc_depth, Kind_zero_calc_depth. lia.
  - destruct (strict_eq r 1%float).
    + rewrite prioritize_calc_depth. lia.
    + rewrite new_StypMulDiv_calc_depth. lia.
Qed.

Lemma stypDiv_calc_depth l r n :
  calc_depth (fst (stypDiv l r n)) <= S (calc_depth l).
Proof.
  unfold stypDiv. destruct (strict_eq r 1%float).
  - rewrite prioritize_calc_depth. lia.
  - rewrite new_StypMulDiv_calc_depth. lia.
Qed.

(** Neither [mul] nor [div] ever nests more deeply than the receiver,
    unless the receiver is an addition or subtraction that gets wrapped. *)
Lemma mul_div_MulDiv_calc_depth o l op r d p m n :
  calc_depth (fst (mul (StypMulDiv o l op r d p) m n))
  <= calc_depth (StypMulDiv o l op r d p)
  /\ calc_depth (fst (div (StypMulDiv o l op r d p) m n))
     <= calc_depth (StypMulDiv o l op r d p).
Proof.
  split; simpl; unfold bind; destruct op.
  - pose proof (stypMul_calc_depth l (r * m)%float n) as D.
    destruct (stypMul l (r * m)%float n) as [v' n1]; simpl in *.
    now rewrite prioritize_calc_depth.
  - pose proof (stypDiv_calc_depth l (r / m)%float n) as D.
    destruct (stypDiv l (r / m)%float n) as [v' n1]; simpl in *.
    now rewrite prioritize_calc_depth.
  - pose proof (stypMul_calc_depth l (r / m)%float n) as D.
    destruct (stypMul l (r / m)%float n) as [v' n1]; simpl in *.
    now rewrite prioritize_calc_depth.
  - pose proof (stypDiv_calc_depth l (r * m)%float n) as D.
    destruct (stypDiv l (r * m)%float n) as [v' n1]; simpl in *.
    now rewrite prioritize_calc_depth.
Qed.

(** C5 (as the code has it).  On a zero, a plain dimension or an
    addition/subtraction node, [mul(1)] and [div(1)] return the receiver
    itself.  [mul(m)] with [m] other than 1 on a plain dimension gives the
    dimension with the number [val * m] (the zero of the kind when that is
    falsy).  On a multiplication (division) node, [mul(m)] ([div(m)]) --
    for every [m], 1 included -- folds [m] into the node's own scalar and
    rebuilds the node through [stypMul] ([stypDiv]) on the inner operand, so
    the result never nests more deeply than the receiver; when the folded
    scalar is truthy and not 1 it is the node over the same inner operand
    with scalar [r * m]. *)
Theorem mul_div_cases (v : StypNumeric) (m : number) (n : nat) :
  (is_MulDiv v = false ->
   mul v 1%float n = (v, n) /\ div v 1%float n = (v, n))
  /\ (forall o val u d p, v = StypDimension o val u d p ->
      strict_eq m 1%float = false ->
      mul v m n
      = (if to_boolean (val * m)%float
         then (StypDimension n (val * m)%float u d p, S n)
         else prioritize (Kind_zero d) p n))
  /\ (forall o x r d p, v = StypMulDiv o x OpMul r d p ->
      mul v m n
      = (let (v', n1) := stypMul x (r * m)%float n in prioritize v' p n1)
      /\ calc_depth (fst (mul v m n)) <= calc_depth v
      /\ (priority_of x = PUsual -> to_boolean (r * m)%float = true ->
          strict_eq (r * m)%float 1%float = false ->
          mul v m n
          = prioritize (StypMulDiv n x OpMul (r * m)%float (dim_of x) PUsual)
                       p (S n)))
  /\ (forall o x r d p, v = StypMulDiv o x OpDiv r d p ->
      div v m n
      = (let (v', n1) := stypDiv x (r * m)%float n in prioritize v' p n1)
      /\ calc_depth (fst (div v m n)) <= calc_depth v
      /\ (priority_of x = PUsual ->
          strict_eq (r * m)%float 1%float = false ->
          div v m n
          = prioritize (StypMulDiv n x OpDiv (r * m)%float (dim_of x) PUsual)
                       p (S n))).
Proof.
  repeat split.
  - destruct v as [z q|o val u d q|o l op r d q|o l op r d q];
      simpl in *; try discriminate; try reflexivity.
    unfold stypMul. simpl.
    change (negb (to_boolean 1%float)) with false.
    change (strict_eq 1%float 1%float) with true. simpl.
    rewrite Priority_eqb_refl. reflexivity.
  - destruct v as [z q|o val u d q|o l op r d q|o l op r d q];
      simpl in *; try discriminate; try reflexivity.
    unfold stypDiv. simpl.
    change (strict_eq 1%float 1%float) with true. simpl.
    rewrite Priority_eqb_refl. reflexivity.
  - intros o val u d p -> Hm. simpl. rewrite Hm. unfold stypDimension.
    destruct (to_boolean (val * m)%float); reflexivity.
  - subst v. reflexivity.
  - subst v. apply mul_div_MulDiv_calc_depth.
  - intros Px T N1. subst v. simpl. unfold bind, stypMul.
    rewrite T, N1. simpl. alloc_step.
    rewrite (usual_of_usual x (S n) Px), Px. reflexivity.
  - subst v. reflexivity.
  - subst v. apply mul_div_MulDiv_calc_depth.
  - intros Px N1. subst v. simpl. unfold bind, stypDiv.
    rewrite N1. alloc_step.
    rewrite (usual_of_usual x (S n) Px), Px. reflexivity.
Qed.

(** C5, at [x * 2] with [x = calc(12px + 2em)]: [(x * 2).mul(3)] is the
    node [x * 6] over the same [x]. *)
Lemma mul_div_cases_witness :
  mul (StypMulDiv 20 Samples.px12_plus_em2 OpMul 2%float
                  Samples.length_kind PUsual) 3%float 21
  = (StypMulDiv 21 Samples.px12_plus_em2 OpMul 6%float
                Samples.length_kind PUsual, 22).
Proof.
  exact (proj2 (proj2 (proj1 (proj2 (proj2
           (mul_div_cases
              (StypMulDiv 20 Samples.px12_plus_em2 OpMul 2%float
                          Samples.length_kind PUsual) 3%float 21)))
           20 Samples.px12_plus_em2 2%float Samples.length_kind PUsual
           eq_refl))
           eq_refl eq_refl eq_refl).
Defined.

(** C5 as stated fails: [x.mul(-1).negate()] is the node [x * 1], and
    multiplying or dividing it by 1 gives back the inner [x], an
    addition node the receiver's [is] rejects.  Also on the node [x * 2],
    [mul(1)] does not return the receiver but allocates an equal node. *)
Lemma mul_one_unwraps_unit_scalar :
  mul (StypMulDiv 20 Samples.px12_plus_em2 OpMul 2%float
                  Samples.length_kind PUsual) 1%float 21
  = (StypMulDiv 21 Samples.px12_plus_em2 OpMul 2%float
                Samples.length_kind PUsual, 22)
  /\ mul Samples.px12_plus_em2 (-1)%float 20
     = (StypMulDiv 20 Samples.px12_plus_em2 OpMul (-1)%float
                   Samples.length_kind PUsual, 21)
  /\ negate (StypMulDiv 20 Samples.px12_plus_em2 OpMul (-1)%float
                        Samples.length_kind PUsual) 21
     = (StypMulDiv 21 Samples.px12_plus_em2 OpMul 1%float
                   Samples.length_kind PUsual, 22)
  /\ mul (StypMulDiv 21 Samples.px12_plus_em2 OpMul 1%float
                     Samples.length_kind PUsual) 1%float 22
     = (Samples.px12_plus_em2, 22)
  /\ div (StypMulDiv 21 Samples.px12_plus_em2 OpMul 1%float
                     Samples.length_kind PUsual) 1%float 22
     = (Samples.px12_plus_em2, 22)
  /\ styp_is (StypMulDiv 21 Samples.px12_plus_em2 OpMul 1%float
                         Samples.length_kind PUsual)
             (VStruct Samples.px12_plus_em2) = false
  /\ type_of Samples.px12_plus_em2 = type_calc.
Proof. repeat split. Qed.

(** C5 on concrete values: the node [x * 2] is what [x.mul(2)] builds,
    multiplying [12px] by 2 gives [24px], and by 1 the same object. *)
Example mul_examples :
  mul Samples.px12_plus_em2 2%float 20
  = (StypMulDiv 20 Samples.px12_plus_em2 OpMul 2%float
                Samples.length_kind PUsual, 21)
  /\ mul Samples.px12 2%float 20
     = (StypDimension 20 24%float "px" Samples.length_kind PUsual, 21)
  /\ mul Samples.px12 1%float 20 = (Samples.px12, 20)
  /\ div Samples.px12 1%float 20 = (Samples.px12, 20).
Proof. repeat split. Qed.

(** *** Multiplication by zero *)

Definition is_division (v : StypNumeric) : bool :=
  match v with
  | StypMulDiv _ _ OpDiv _ _ _ => true
  | _ => false
  end.

Lemma Kind_zero_priority (k : Kind) : priority_of (Kind_zero k) = PUsual.
Proof. destruct k; reflexivity. Qed.

(** C10 (as the code has it): for a well-formed value [v] of kind [k]
    other than a division node, [v.mul(0)] is [k.zero.prioritize] at the
    priority of [v].  In a unitless-zero kind that is the interned [Zero]
    object of that priority, and nothing is allocated.  In a unit-zero
    kind it is the kind's own zero dimension (number 0 in the zero unit)
    for the usual priority, and a newly allocated important dimension with
    number 0 otherwise. *)
Theorem mul_zero_cases (k : Kind) (v : StypNumeric) (n : nat) :
  wf k v = true ->
  is_division v = false ->
  mul v 0%float n = prioritize (Kind_zero k) (priority_of v) n
  /\ (forall z, k = UnitlessZero z ->
      mul v 0%float n = (Zero z (priority_of v), n))
  /\ (forall kid zeroUnit zid, k = UnitZero kid zeroUnit zid ->
      mul v 0%float n
      = match priority_of v with
        | PUsual => (StypDimension zid 0%float zeroUnit k PUsual, n)
        | PImportant => (StypDimension n 0%float zeroUnit k PImportant, S n)
        end).
Proof.
  intros W Hd.
  assert (E : mul v 0%float n = prioritize (Kind_zero k) (priority_of v) n).
  { destruct v as [z q|o val u d q|o l op r d q|o l op r d q].
    - apply wf_dim in W. simpl in W. subst k. simpl.
      destruct q; reflexivity.
    - apply wf_dim in W. simpl in W. subst d.
      unfold mul, stypDimension, priority_of.
      change (strict_eq 0%float 1%float) with false.
      now rewrite to_boolean_mul_zero.
    - rewrite <- (wf_dim _ _ W). reflexivity.
    - destruct op; [|discriminate].
      apply wf_parts_MulDiv in W as (-> & Wl & Pl).
      unfold mul, bind, stypMul.
      rewrite to_boolean_mul_zero, (wf_dim _ _ Wl), Pl.
      cbn [negb priority_of].
      now rewrite (usual_of_usual _ n (Kind_zero_priority k)). }
  split; [exact E|]. split.
  - intros z ->. rewrite E. simpl. destruct (priority_of v); reflexivity.
  - intros kid zeroUnit zid ->. rewrite E. simpl.
    destruct (priority_of v); reflexivity.
Qed.

(** C10, at [12px] and at [calc(12px + 2em)]: both give the interned usual
    zero of the length kind. *)
Lemma mul_zero_cases_witness :
  mul Samples.px12 0%float 20 = (Samples.length_zero, 20)
  /\ mul Samples.px12_plus_em2 0%float 20 = (Samples.length_zero, 20).
Proof.
  split.
  - exact (proj1 (mul_zero_cases Samples.length_kind Samples.px12 20
                    eq_refl eq_refl)).
  - exact (proj1 (mul_zero_cases Samples.length_kind Samples.px12_plus_em2
                    20 eq_refl eq_refl)).
Defined.

(** C10 as stated fails twice.  In the unit-zero kind of angles,
    [1rad.mul(0)] is the dimension [0deg], and for the important [1rad] a
    newly allocated dimension with number 0.  In the length kind,
    [x.div(2).mul(0)] divides the scalar by zero and is the calc node
    [x / Infinity]. *)
Lemma mul_zero_not_interned_zero :
  wf Samples.angle_kind Samples.rad1 = true
  /\ mul Samples.rad1 0%float 20
     = (StypDimension 4 0%float "deg" Samples.angle_kind PUsual, 20)
  /\ important Samples.rad1 20
     = (StypDimension 20 1%float "rad" Samples.angle_kind PImportant, 21)
  /\ mul (StypDimension 20 1%float "rad" Samples.angle_kind PImportant)
         0%float 21
     = (StypDimension 21 0%float "deg" Samples.angle_kind PImportant, 22)
  /\ div Samples.px12_plus_em2 2%float 20
     = (StypMulDiv 20 Samples.px12_plus_em2 OpDiv 2%float
                   Samples.length_kind PUsual, 21)
  /\ mul (StypMulDiv 20 Samples.px12_plus_em2 OpDiv 2%float
                     Samples.length_kind PUsual) 0%float 21
     = (StypMulDiv 21 Samples.px12_plus_em2 OpDiv infinity
                   Samples.length_kind PUsual, 22).
Proof. repeat split. Qed.

(** *** Splitting the priority off a value *)

Lemma length_append (a b : string) :
  String.length (a ++ b) = String.length a + String.length b.
Proof. induction a as [|c a IH]; simpl; congruence. Qed.

Lemma substring_0_length (s : string) : substring 0 (String.length s) s = s.
Proof. induction s as [|c s IH]; simpl; congruence. Qed.

Lemma substring_0_append (a b : string) :
  substring 0 (String.length a) (a ++ b) = a.
Proof.
  induction a as [|c a IH]; simpl.
  - destruct b; reflexivity.
  - congruence.
Qed.

Lemma substring_skip_append (a b : string) (m : nat) :
  substring (String.length a) m (a ++ b) = substring 0 m b.
Proof. induction a as [|c a IH]; simpl; [reflexivity | exact IH]. Qed.

Lemma substring_split (s : string) :
  forall k, k <= String.length s ->
            s = (substring 0 k s ++ substring k (String.length s - k) s)%string.
Proof.
  induction s as [|c s IH]; intros k Hk; simpl in *.
  - destruct k; [reflexivity | lia].
  - destruct k as [|k]; simpl.
    + now rewrite substring_0_length.
    + f_equal. apply IH. lia.
Qed.

Lemma endsWith_append (pre suffix : string) :
  endsWith (pre ++ suffix) suffix = true.
Proof.
  unfold endsWith. rewrite length_append.
  replace (String.length pre + String.length suffix - String.length suffix)
    with (String.length pre) by lia.
  rewrite substring_skip_append, substring_0_length, String.eqb_refl.
  apply andb_true_intro. split; [apply Nat.leb_le; lia | reflexivity].
Qed.

Lemma endsWith_split (s suffix : string) :
  endsWith s suffix = true ->
  s = (substring 0 (String.length s - String.length suffix) s
       ++ suffix)%string.
Proof.
  unfold endsWith. intros H. apply andb_prop in H as [L E].
  apply Nat.leb_le in L. apply String.eqb_eq in E.
  rewrite (substring_split s (String.length s - String.length suffix))
    at 1 by lia.
  replace (String.length s - (String.length s - String.length suffix))
    with (String.length suffix) by lia.
  now rewrite E.
Qed.

(** C7 (as the code has it): [stypSplitPriority] by cases.  [undefined]
    gives the empty tuple.  A structured value with important priority
    gives its usual variant and ['important'].  A string [pre ++
    " !important"] gives [pre] with leading and trailing white space
    trimmed, and ['important'].  Every other value is returned as it is,
    without priority. *)
Theorem stypSplitPriority_cases (value : StypValue) (n : nat) :
  (value = VUndefined -> stypSplitPriority value n = (Split_none, n))
  /\ (forall v, value = VStruct v -> priority_of v = PImportant ->
      stypSplitPriority value n
      = (let (u, n1) := usual v n in (Split_important (VStruct u), n1))
      /\ priority_of (fst (usual v n)) = PUsual)
  /\ (forall v, value = VStruct v -> priority_of v = PUsual ->
      stypSplitPriority value n = (Split_value value, n))
  /\ (forall pre, value = VString (pre ++ IMPORTANT_CSS_SUFFIX) ->
      stypSplitPriority value n
      = (Split_important (VString (trim pre)), n))
  /\ (forall s, value = VString s ->
      (forall pre, s <> (pre ++ IMPORTANT_CSS_SUFFIX)%string) ->
      stypSplitPriority value n = (Split_value value, n))
  /\ (forall k, value = VNumber k ->
      stypSplitPriority value n = (Split_value value, n))
  /\ (forall b, value = VBoolean b ->
      stypSplitPriority value n = (Split_value value, n)).
Proof.
  repeat split.
  - intros ->. reflexivity.
  - subst value. simpl. rewrite H0. reflexivity.
  - apply prioritize_priority.
  - intros v -> P. simpl. now rewrite P.
  - intros pre ->. unfold stypSplitPriority.
    rewrite endsWith_append, length_append.
    replace (String.length pre + String.length IMPORTANT_CSS_SUFFIX
             - String.length IMPORTANT_CSS_SUFFIX)
      with (String.length pre) by lia.
    now rewrite substring_0_append.
  - intros s -> Hs. unfold stypSplitPriority.
    destruct (endsWith s IMPORTANT_CSS_SUFFIX) eqn:E; [|reflexivity].
    exfalso. exact (Hs _ (endsWith_split _ _ E)).
  - intros k ->. reflexivity.
  - intros b ->. reflexivity.
Qed.

(** C7, at "12px !important": the value is "12px", the priority
    important. *)
Lemma stypSplitPriority_cases_witness :
  stypSplitPriority (VString "12px !important") 0
  = (Split_important (VString "12px"), 0).
Proof.
  exact (proj1 (proj2 (proj2 (proj2
           (stypSplitPriority_cases (VString "12px !important") 0))))
           "12px"%string eq_refl).
Defined.

(** C7 as stated fails: "a  !important" is "a " followed by the suffix,
    and the value returned is "a", not "a ". *)
Lemma stypSplitPriority_trims :
  ("a  !important" = "a " ++ IMPORTANT_CSS_SUFFIX)%string
  /\ stypSplitPriority (VString "a  !important") 0
     = (Split_important (VString "a"), 0)
  /\ String.eqb "a" "a " = false.
Proof. repeat split. Qed.

(** C7 on further values: the suffix is matched exactly, and an important
    structured value comes back as its usual variant. *)
Example stypSplitPriority_examples :
  stypSplitPriority (VString "12px !IMPORTANT") 0
  = (Split_value (VString "12px !IMPORTANT"), 0)
  /\ stypSplitPriority (VString "12px!important") 0
     = (Split_value (VString "12px!important"), 0)
  /\ stypSplitPriority
       (VStruct (StypDimension 20 12%float "px" Samples.length_kind
                               PImportant)) 21
     = (Split_important
          (VStruct (StypDimension 21 12%float "px" Samples.length_kind
                                  PUsual)), 22)
  /\ stypSplitPriority (VStruct Samples.px12) 21
     = (Split_value (VStruct Samples.px12), 21).
Proof. repeat split. Qed.

End Value.

(** ** Selectors ([selector-text.impl.ts], [ruleSelector]) *)

Module Selector.

Open Scope string_scope.

(** [StypSelector.Combinator]: ['>' | '+' | '~']. *)
Inductive Combinator : Type := Child | Adjacent | GeneralSibling.

(** The token itself: a combinator is its own text. *)
Definition Combinator_text (c : Combinator) : string :=
  match c with
  | Child => ">"
  | Adjacent => "+"
  | GeneralSibling => "~"
  end.

(** [StypSelector.NormalizedPart]; an absent field is [None]. *)
Record NormalizedPart : Type := {
  ns : option string;
  e : option string;
  i : option string;
  c : option (list string);
  s : option string;
  qualifiers : option (list string)  (* the field [$] *)
}.

Inductive Item : Type :=
| Part (p : NormalizedPart)
| Comb (c : Combinator).

(** [StypSelector.Normalized]. *)
Definition Normalized : Type := list Item.

(** Modelled from the spec: [isCombinator] of [selector.impl], which is
    not among the sources; a combinator is one of the tokens that stand
    between two parts, a part is an object. *)
Definition isCombinator (item : Item) : bool :=
  match item with
  | Comb _ => true
  | Part _ => false
  end.

(** A template literal prints an absent value as "undefined". *)
Definition template (o : option string) : string :=
  match o with
  | Some x => x
  | None => "undefined"
  end.

(** Truthiness of an optional string: present and not empty. *)
Definition truthy (o : option string) : option string :=
  match o with
  | Some "" | None => None
  | Some x => Some x
  end.

Section Format.

(** [cssescId] of [src/internal] and the caller's [formatRaw]. *)
Variable cssescId : string -> string.
Variable formatRaw : string -> string.

Definition formatItem (item : Item) : string :=
  match item with
  | Comb k => Combinator_text k
  | Part p =>
      let string0 :=
        match ns p with
        | Some n => n ++ "|" ++ template (e p)
        | None => match truthy (e p) with Some x => x | None => "" end
        end in
      let string1 :=
        match truthy (i p) with
        | Some x => string0 ++ "#" ++ cssescId x
        | None => string0
        end in
      let string2 :=
        match c p with
        | Some classes =>
            fold_left (fun result className =>
                         result ++ "." ++ cssescId className)
                      classes string1
        | None => string1
        end in
      match truthy (s p) with
      | Some x => string2 ++ formatRaw x
      | None => string2
      end
  end.

(** [selector.reduce((result, item) => result + formatItem(item), '')]. *)
Definition formatSelector (selector : Normalized) : string :=
  fold_left (fun result item => result ++ formatItem item) selector "".

(** [ruleSelector] of [produceBasicStyle], with the option
    [rootSelector] and the normalization [stypSelector] it calls. *)
Variable StypSelector : Type.
Variable stypSelector : StypSelector -> Normalized.
Variable rootSelector : StypSelector.

Definition ruleSelector (selector : Normalized) : Normalized :=
  match selector with
  | [] => stypSelector rootSelector
  | item :: _ =>
      if isCombinator item then (stypSelector rootSelector ++ selector)%list
      else selector
  end.

Lemma append_assoc (a b d : string) : (a ++ b) ++ d = a ++ (b ++ d).
Proof. induction a as [|x a IH]; simpl; congruence. Qed.

Lemma append_empty_r (a : string) : a ++ "" = a.
Proof. induction a as [|x a IH]; simpl; congruence. Qed.

Lemma fold_formatItem (selector : Normalized) :
  forall acc,
    fold_left (fun result item => result ++ formatItem item) selector acc
    = acc ++ formatSelector selector.
Proof.
  unfold formatSelector.
  induction selector as [|item rest IH]; intros acc; simpl.
  - now rewrite append_empty_r.
  - rewrite IH, (IH (formatItem item)). now rewrite append_assoc.
Qed.

Lemma formatSelector_app (a b : Normalized) :
  formatSelector (a ++ b)%list = formatSelector a ++ formatSelector b.
Proof.
  unfold formatSelector at 1. rewrite fold_left_app.
  apply fold_formatItem.
Qed.

Lemma formatSelector_cons (item : Item) (rest : Normalized) :
  formatSelector (item :: rest) = formatItem item ++ formatSelector rest.
Proof. apply (formatSelector_app [item] rest). Qed.

(** C1: the selector a rule is rendered with.  An empty selector gives
    the normalized root selector; a selector that starts with a
    combinator gives the normalized root selector followed by the
    selector as it is, whose text is the root selector's text, the
    combinator, then the text of the rest; any other selector is used
    as it is. *)
Theorem ruleSelector_cases :
  ruleSelector [] = stypSelector rootSelector
  /\ (forall k rest,
         ruleSelector (Comb k :: rest)
         = (stypSelector rootSelector ++ Comb k :: rest)%list
         /\ formatSelector (ruleSelector (Comb k :: rest))
            = formatSelector (stypSelector rootSelector)
              ++ Combinator_text k ++ formatSelector rest)
  /\ (forall p rest, ruleSelector (Part p :: rest) = Part p :: rest).
Proof.
  split; [reflexivity|]. split; [|reflexivity].
  intros k rest. split; [reflexivity|].
  simpl. now rewrite formatSelector_app, formatSelector_cons.
Qed.

End Format.

(** C1 on the configuration of the test suite: root selector [.root],
    rule selector [['>', { c: ['nested'] }]], rendered as
    [.root>.nested]. *)
Example ruleSelector_root_combined :
  let root := [Part {| ns := None; e := None; i := None; c := None;
                       s := Some ".root"; qualifiers := None |}] in
  let nested := Part {| ns := None; e := None; i := None;
                        c := Some ["nested"]; s := None;
                        qualifiers := None |} in
  formatSelector (fun x => x) (fun x => x)
    (ruleSelector Normalized (fun x => x) root [Comb Child; nested])
  = ".root>.nested"
  /\ formatSelector (fun x => x) (fun x => x)
       (ruleSelector Normalized (fun x => x) root [])
     = ".root"
  /\ ruleSelector Normalized (fun x => x) root [nested] = [nested].
Proof. repeat split. Qed.

(** *** Qualifiers of a normalized part *)

(** [s] cut at the first occurrence of [sep]: what precedes it and what
    follows it. *)
Fixpoint cut (sep : ascii) (s : string) : option (string * string) :=
  match s with
  | EmptyString => None
  | String x s' =>
      if Ascii.eqb x sep then Some (EmptyString, s')
      else match cut sep s' with
           | Some (before, after) => Some (String x before, after)
           | None => None
           end
  end.

Definition first_segment (rest : string) : string :=
  match cut "=" rest with
  | Some (segment, _) => segment
  | None => rest
  end.

(** Modelled from the spec: qualifier exposure of [stypSelector]
    ([selector.impl] is not among the sources).  A qualifier of the form
    [name:rest] exposes the bare prefix [name] and the prefix plus the
    first segment of [rest] before any [=], besides itself; the rule
    splits on [:], then on the first [=]. *)
Definition exposeQualifier (qualifier : string) : list string :=
  match cut ":" qualifier with
  | Some (name, rest) =>
      [name; name ++ ":" ++ first_segment rest; qualifier]
  | None => [qualifier]
  end.

(** Insertion into a list sorted by code units, without duplicates. *)
Fixpoint insert (x : string) (l : list string) : list string :=
  match l with
  | [] => [x]
  | y :: l' =>
      match String.compare x y with
      | Lt => x :: l
      | Eq => l
      | Gt => y :: insert x l'
      end
  end.

Definition not_empty (q : string) : bool := negb (String.eqb q "").

(** Modelled from the spec: the qualifier list of a normalized part
    ([selector.impl] is not among the sources): empty strings are
    discarded, every qualifier is exposed, no empty string survives, and
    the result is the sorted sequence without duplicates. *)
Definition normalizeQualifiers (qualifiers : list string) : list string :=
  fold_right insert []
    (filter not_empty
       (flat_map exposeQualifier (filter not_empty qualifiers))).

(** Sorted by code units, each string strictly below the next. *)
Definition hd_above (a : string) (l : list string) : bool :=
  match l with
  | [] => true
  | b :: _ => String.ltb a b
  end.

Fixpoint strictly_increasing (l : list string) : bool :=
  match l with
  | [] => true
  | a :: l' => hd_above a l' && strictly_increasing l'
  end.

Fixpoint occurs (sep : ascii) (s : string) : bool :=
  match s with
  | EmptyString => false
  | String x s' => Ascii.eqb x sep || occurs sep s'
  end.

Lemma cut_append (sep : ascii) (before after : string) :
  occurs sep before = false ->
  cut sep (before ++ String sep after) = Some (before, after).
Proof.
  induction before as [|x before IH]; simpl; intros H.
  - now rewrite Ascii.eqb_refl.
  - apply orb_false_elim in H as [Hx Hb].
    now rewrite Hx, (IH Hb).
Qed.

Lemma cut_none (sep : ascii) (s : string) :
  occurs sep s = false -> cut sep s = None.
Proof.
  induction s as [|x s' IH]; simpl; intros H; [reflexivity|].
  apply orb_false_elim in H as [Hx Hs]. now rewrite Hx, (IH Hs).
Qed.

Lemma insert_In (x : string) (l : list string) (y : string) :
  In y (insert x l) <-> y = x \/ In y l.
Proof.
  induction l as [|a l' IH]; simpl.
  - intuition congruence.
  - destruct (String.compare x a) eqn:C; simpl.
    + apply String.compare_eq_iff in C. subst a. intuition congruence.
    + intuition congruence.
    + rewrite IH. intuition congruence.
Qed.

Lemma hd_above_insert (a x : string) (l : list string) :
  String.ltb a x = true -> hd_above a l = true ->
  hd_above a (insert x l) = true.
Proof.
  intros Hx Hl. destruct l as [|b l']; simpl; [exact Hx|].
  destruct (String.compare x b); simpl; assumption.
Qed.

Lemma insert_strictly_increasing (x : string) (l : list string) :
  strictly_increasing l = true -> strictly_increasing (insert x l) = true.
Proof.
  induction l as [|a l' IH]; intros H; [reflexivity|].
  cbn [strictly_increasing] in H. apply andb_prop in H as [Ha Hs].
  cbn [insert]. destruct (String.compare x a) eqn:C.
  - cbn [strictly_increasing]. now rewrite Ha, Hs.
  - cbn [strictly_increasing hd_above]. unfold String.ltb.
    now rewrite C, Ha, Hs.
  - cbn [strictly_increasing].
    rewrite (IH Hs), andb_true_r. apply hd_above_insert; [|exact Ha].
    unfold String.ltb. now rewrite String.compare_antisym, C.
Qed.

Lemma sorted_set_In (l : list string) (y : string) :
  In y (fold_right insert [] l) <-> In y l.
Proof.
  induction l as [|a l' IH]; simpl; [reflexivity|].
  rewrite insert_In, IH. intuition congruence.
Qed.

Lemma sorted_set_strictly_increasing (l : list string) :
  strictly_increasing (fold_right insert [] l) = true.
Proof.
  induction l as [|a l' IH]; [reflexivity|].
  simpl. now apply insert_strictly_increasing.
Qed.

Lemma not_empty_iff (q : string) : not_empty q = true <-> q <> "".
Proof.
  unfold not_empty. rewrite negb_true_iff. apply String.eqb_neq.
Qed.

(** C8: the qualifiers ['foo:def', 'foo:z', 'bar:abc=vvv:xxx'] normalize
    to ['bar', 'bar:abc', 'bar:abc=vvv:xxx', 'foo', 'foo:def', 'foo:z'];
    a qualifier [name:rest] (no colon in [name]) exposes exactly the bare
    [name], [name] with the segment of [rest] before any [=], and itself;
    and for every list of qualifiers the normalized list is strictly
    increasing and holds exactly the non-empty strings that some
    qualifier of the list exposes. *)
Theorem qualifiers_exposed :
  normalizeQualifiers ["foo:def"; "foo:z"; "bar:abc=vvv:xxx"]
  = ["bar"; "bar:abc"; "bar:abc=vvv:xxx"; "foo"; "foo:def"; "foo:z"]
  /\ (forall name segment value,
         occurs ":" name = false -> occurs "=" segment = false ->
         exposeQualifier (name ++ ":" ++ segment ++ "=" ++ value)
         = [name; name ++ ":" ++ segment;
            name ++ ":" ++ segment ++ "=" ++ value])
  /\ (forall name rest,
         occurs ":" name = false -> occurs "=" rest = false ->
         exposeQualifier (name ++ ":" ++ rest)
         = [name; name ++ ":" ++ rest; name ++ ":" ++ rest])
  /\ (forall qualifier,
         occurs ":" qualifier = false ->
         exposeQualifier qualifier = [qualifier])
  /\ (forall qualifiers,
         strictly_increasing (normalizeQualifiers qualifiers) = true)
  /\ (forall qualifiers q,
         In q (normalizeQualifiers qualifiers)
         <-> q <> ""
             /\ exists qualifier,
                 In qualifier qualifiers /\ In q (exposeQualifier qualifier)).
Proof.
  split; [reflexivity|].
  split; [|split; [|split; [|split]]].
  - intros name segment value Hn Hs. unfold exposeQualifier.
    change (name ++ ":" ++ segment ++ "=" ++ value)
      with (name ++ String ":" (segment ++ String "=" value)).
    rewrite (cut_append _ _ _ Hn). unfold first_segment.
    now rewrite (cut_append _ _ _ Hs).
  - intros name rest Hn Hr. unfold exposeQualifier.
    change (name ++ ":" ++ rest) with (name ++ String ":" rest).
    rewrite (cut_append _ _ _ Hn). unfold first_segment.
    now rewrite (cut_none _ _ Hr).
  - intros qualifier Hq. unfold exposeQualifier.
    now rewrite (cut_none _ _ Hq).
  - intros qualifiers. apply sorted_set_strictly_increasing.
  - intros qualifiers q. unfold normalizeQualifiers.
    rewrite sorted_set_In, filter_In, in_flat_map, not_empty_iff.
    split.
    + intros [[q0 [H0 Hq]] Hne]. split; [exact Hne|].
      exists q0. split; [|exact Hq]. now apply filter_In in H0.
    + intros [Hne [q0 [H0 Hq]]]. split; [|exact Hne].
      exists q0. split; [|exact Hq]. apply filter_In. split; [exact H0|].
      apply not_empty_iff. intros ->. apply Hne.
      destruct Hq as [Hq|[]]. now symmetry.
Qed.

(** C8: an empty name is not exposed, and duplicates and empty entries
    of the input leave no trace. *)
Example qualifiers_exposed_edge_cases :
  normalizeQualifiers [":x"] = [":x"]
  /\ normalizeQualifiers [""; "b"; ""; "a"; "b"] = ["a"; "b"]
  /\ normalizeQualifiers [] = [].
Proof. repeat split. Qed.

(** C8, at the qualifier [bar:abc=vvv:xxx]. *)
Lemma qualifiers_exposed_witness :
  exposeQualifier "bar:abc=vvv:xxx" = ["bar"; "bar:abc"; "bar:abc=vvv:xxx"].
Proof.
  exact (proj1 (proj2 qualifiers_exposed) "bar" "abc" "vvv:xxx"
               eq_refl eq_refl).
Defined.

End Selector.

(** ** The render job of a rule ([renderRule] of [produceBasicStyle]) *)

Module Producer.

Section RenderRule.

Variable CSSRule : Type.
Variable StypProperties : Type.

(** A [CSSStyleSheet], as much as the job sees of it: [cssRules]. *)
Definition CSSStyleSheet : Type := list CSSRule.

(** [sheet.deleteRule(index)]: removes the rule at [index]; an index out
    of range is an [IndexSizeError]. *)
Definition deleteRule (sheet : CSSStyleSheet) (index : nat)
  : option CSSStyleSheet :=
  if index <? length sheet
  then Some (firstn index sheet ++ skipn (S index) sheet)
  else None.

Lemma deleteRule_length sheet index sheet' :
  deleteRule sheet index = Some sheet' ->
  S (length sheet') = length sheet.
Proof.
  unfold deleteRule. destruct (index <? length sheet) eqn:L; [|discriminate].
  apply Nat.ltb_lt in L. intros E.
  assert (sheet' = firstn index sheet ++ skipn (S index) sheet) as ->
      by congruence.
  rewrite length_app, length_firstn, length_skipn. lia.
Qed.

(** [clearProperties(sheet)]:
    [while (sheet.cssRules.length)
       sheet.deleteRule(sheet.cssRules.length - 1)]. *)
Equations? clearProperties (sheet : CSSStyleSheet) : option CSSStyleSheet
  by wf (length sheet) lt :=
  clearProperties sheet with Nat.eqb (length sheet) 0 := {
    | true => Some sheet
    | false with Logic.inspect (deleteRule sheet (length sheet - 1)) := {
        | exist _ (Some sheet') D => clearProperties sheet'
        | exist _ None _ => None } }.
Proof. apply deleteRule_length in D. lia. Qed.

(** What the renderer chain behind [producer.render(properties)] does
    with the style sheet: [None] when it never reads
    [producer.styleSheet], else the rules it leaves in the sheet it
    found. *)
Variable render :
  StypProperties -> option (CSSStyleSheet -> CSSStyleSheet).

(** The rules of the sheet a call of the option [addStyleSheet]
    creates. *)
Variable addStyleSheet : CSSStyleSheet.

(** [sheetRef: StyleSheetRef | undefined], the variable the jobs of one
    rule share. *)
Definition SheetRef : Type := option CSSStyleSheet.

(** [producer.render(properties)] with the lazy [styleSheet] getter:
    [if (!sheetRef) sheetRef = addStyleSheet(producer)]. *)
Definition produce (properties : StypProperties) (sheetRef : SheetRef)
  : SheetRef :=
  match render properties with
  | None => sheetRef
  | Some write =>
      Some (write match sheetRef with
                  | Some sheet => sheet
                  | None => addStyleSheet
                  end)
  end.

(** The job [renderProperties(properties)] schedules; [None] is an
    exception. *)
Definition renderProperties (properties : StypProperties)
           (sheetRef : SheetRef) : option SheetRef :=
  match sheetRef with
  | Some sheet =>
      match clearProperties sheet with
      | Some cleared => Some (produce properties (Some cleared))
      | None => None
      end
  | None => Some (produce properties None)
  end.

(** The job [removeStyle()] schedules: the sheet, if any, is removed and
    [sheetRef] reset. *)
Definition removeStyle (sheetRef : SheetRef) : SheetRef := None.

Inductive Job : Type :=
| RenderProperties (properties : StypProperties)
| RemoveStyle.

Definition run_job (job : Job) (sheetRef : SheetRef) : option SheetRef :=
  match job with
  | RenderProperties properties => renderProperties properties sheetRef
  | RemoveStyle => Some (removeStyle sheetRef)
  end.

(** The jobs of one rule run one after another. *)
Fixpoint run_jobs (jobs : list Job) (sheetRef : SheetRef)
  : option SheetRef :=
  match jobs with
  | [] => Some sheetRef
  | job :: jobs' =>
      match run_job job sheetRef with
      | Some sheetRef' => run_jobs jobs' sheetRef'
      | None => None
      end
  end.

Lemma deleteRule_last (sheet : CSSStyleSheet) :
  length sheet <> 0 ->
  deleteRule sheet (length sheet - 1)
  = Some (firstn (length sheet - 1) sheet).
Proof.
  intros H. unfold deleteRule.
  destruct (length sheet - 1 <? length sheet) eqn:L.
  - rewrite skipn_all2 by lia. now rewrite app_nil_r.
  - apply Nat.ltb_ge in L. lia.
Qed.

(** The loop ends, without an exception, with an empty sheet. *)
Lemma clearProperties_empty (sheet : CSSStyleSheet) :
  clearProperties sheet = Some [].
Proof.
  funelim (clearProperties sheet).
  - destruct sheet; [reflexivity | discriminate].
  - assumption.
  - exfalso. apply Nat.eqb_neq in Heq.
    pose proof (deleteRule_last sheet Heq) as L. congruence.
Qed.

Lemma run_jobs_app (jobs jobs' : list Job) :
  forall sheetRef,
    run_jobs (jobs ++ jobs') sheetRef
    = match run_jobs jobs sheetRef with
      | Some sheetRef' => run_jobs jobs' sheetRef'
      | None => None
      end.
Proof.
  induction jobs as [|job jobs IH]; intros sheetRef; simpl.
  - reflexivity.
  - destruct (run_job job sheetRef); [apply IH | reflexivity].
Qed.

(** No job throws. *)
Lemma run_jobs_total (jobs : list Job) :
  forall sheetRef, exists sheetRef', run_jobs jobs sheetRef = Some sheetRef'.
Proof.
  induction jobs as [|job jobs IH]; intros sheetRef; simpl.
  - now exists sheetRef.
  - destruct job as [properties|]; simpl.
    + unfold renderProperties. destruct sheetRef as [sheet|].
      * rewrite clearProperties_empty. apply IH.
      * apply IH.
    + apply IH.
Qed.

(** C2: a render job that finds a style sheet first deletes every rule
    of it, and the renderers write into the emptied sheet: whatever the
    sheet held, what it holds after the job is what the renderers wrote
    for the new properties into an empty sheet.  So after any sequence
    of jobs that left a style sheet, the next render job leaves only
    the rules of its own render. *)
Theorem renderProperties_clears_first
        (properties : StypProperties) (sheet : CSSStyleSheet) :
  clearProperties sheet = Some []
  /\ renderProperties properties (Some sheet)
     = Some (produce properties (Some []))
  /\ (forall sheet',
         renderProperties properties (Some sheet')
         = renderProperties properties (Some sheet))
  /\ (forall jobs sheetRef,
         run_jobs jobs sheetRef = Some (Some sheet) ->
         run_jobs (jobs ++ [RenderProperties properties]) sheetRef
         = Some (produce properties (Some []))).
Proof.
  assert (R : forall old, renderProperties properties (Some old)
                          = Some (produce properties (Some []))).
  { intros old. unfold renderProperties.
    now rewrite clearProperties_empty. }
  repeat split.
  - apply clearProperties_empty.
  - apply R.
  - intros sheet'. now rewrite !R.
  - intros jobs sheetRef H. rewrite run_jobs_app, H.
    cbn [run_jobs run_job]. now rewrite R.
Qed.

End RenderRule.

Arguments RenderProperties {StypProperties} properties.
Arguments RemoveStyle {StypProperties}.
Arguments run_jobs {CSSRule StypProperties} render addStyleSheet jobs
  sheetRef.

(** C2 on a renderer that appends one rule per render: after the renders
    of [1] and then of [2], the style sheet holds the rule of [2] only. *)
Lemma renderProperties_clears_first_witness :
  run_jobs (fun p => Some (fun sheet => sheet ++ [p])) []
           ([RenderProperties 1] ++ [RenderProperties 2]) None
  = Some (Some [2]).
Proof.
  exact (proj2 (proj2 (proj2
           (renderProperties_clears_first nat nat
              (fun p => Some (fun sheet => sheet ++ [p])) [] 2 [1])))
           [RenderProperties 1] None eq_refl).
Defined.

End Producer.

(** ** Further properties of the arithmetic, the texts and the jobs *)

Module JsNumberFacts.

Import JsNumber.

Lemma SFeqb_sym (x y : spec_float) : SFeqb x y = SFeqb y x.
Proof.
  unfold SFeqb.
  destruct x as [sx|sx| |sx mx ex], y as [sy|sy| |sy my ey]; simpl;
    try reflexivity;
    try (destruct sx; reflexivity);
    try (destruct sy; reflexivity);
    try (destruct sx, sy; reflexivity).
  change (IntDef.Z.compare ey ex) with (Z.compare ey ex).
  change (IntDef.Z.compare ex ey) with (Z.compare ex ey).
  change (PosDef.Pos.compare_cont Eq my mx) with (Pos.compare my mx).
  change (PosDef.Pos.compare_cont Eq mx my) with (Pos.compare mx my).
  rewrite (Z.compare_antisym ex ey), (Pos.compare_antisym mx my).
  destruct sx, sy; try reflexivity;
    destruct (Z.compare ex ey); simpl; try reflexivity;
    destruct (Pos.compare mx my); reflexivity.
Qed.

Lemma strict_eq_sym (x y : number) : strict_eq x y = strict_eq y x.
Proof. unfold strict_eq. rewrite !FloatAxioms.eqb_spec. apply SFeqb_sym. Qed.

Lemma strict_eq_refl (x : number) :
  strict_eq x x = negb (PrimFloat.is_nan x).
Proof. unfold strict_eq, PrimFloat.is_nan. now rewrite negb_involutive. Qed.

Lemma to_boolean_not_nan (x : number) :
  to_boolean x = true -> strict_eq x x = true.
Proof.
  unfold to_boolean. rewrite strict_eq_refl. intros H.
  apply negb_true_iff, orb_false_elim in H as [_ H]. now rewrite H.
Qed.

Lemma opp_involutive (x : number) : (- - x)%float = x.
Proof.
  apply Prim2SF_inj. rewrite !opp_spec.
  destruct (Prim2SF x); simpl; now rewrite ?negb_involutive.
Qed.

Lemma to_boolean_sub_diag (x : number) : to_boolean (x - x)%float = false.
Proof.
  rewrite to_boolean_spec, sub_spec. unfold SF64sub, SFsub.
  destruct (Prim2SF x) as [s|s| |s m e]; try (destruct s; reflexivity);
    try reflexivity.
  cbv zeta.
  generalize (cond_Zopp s (Z.pos (fst (shl_align m e (IntDef.Z.min e e))))).
  intros a. change (IntDef.Z.sub a a) with (Z.sub a a).
  rewrite Z.sub_diag. reflexivity.
Qed.

Lemma sub_add_opp (x y : number) : (x - y)%float = (x + - y)%float.
Proof.
  apply Prim2SF_inj. rewrite sub_spec, add_spec, opp_spec.
  unfold SF64sub, SF64add, SFsub, SFadd.
  destruct (Prim2SF x) as [sx|sx| |sx mx ex],
           (Prim2SF y) as [sy|sy| |sy my ey]; simpl;
    try reflexivity;
    try (destruct sx, sy; reflexivity).
Qed.

End JsNumberFacts.

Module ValueFacts.

Import JsNumber Value JsNumberFacts.

(** *** Invariants of the arithmetic *)

(** X1: well-formedness is an invariant of the arithmetic.  From
    well-formed operands of one kind, [add], [sub], [mul], [div],
    [negate] and [prioritize] give a well-formed value of that kind: every
    calc node stores operands of usual priority and of its own kind. *)
Theorem operations_keep_wf (k : Kind) (a b : StypNumeric) (m : number)
        (p : Priority) (n : nat) :
  wf k a = true -> wf k b = true ->
  wf k (fst (add a b n)) = true
  /\ wf k (fst (sub a b n)) = true
  /\ wf k (fst (mul a m n)) = true
  /\ wf k (fst (div a m n)) = true
  /\ wf k (fst (negate a n)) = true
  /\ wf k (fst (prioritize a p n)) = true.
Proof.
  intros Ha Hb. repeat split.
  - now apply wf_add.
  - now apply wf_sub.
  - now apply wf_mul.
  - now apply wf_div.
  - now apply wf_negate.
  - now apply wf_prioritize.
Qed.

(** X1, at [12px] and [2em] of the length kind. *)
Lemma operations_keep_wf_witness :
  wf Samples.length_kind (fst (add Samples.px12 Samples.em2 20)) = true.
Proof.
  exact (proj1 (operations_keep_wf Samples.length_kind Samples.px12
                  Samples.em2 2%float PImportant 20 eq_refl eq_refl)).
Defined.

Lemma stypDimension_priority val unit d p n :
  priority_of (fst (stypDimension val unit d p n)) = p.
Proof.
  unfold stypDimension. destruct (to_boolean val); [reflexivity|].
  apply prioritize_priority.
Qed.

Lemma new_StypAddSub_priority l op r d p n :
  priority_of (fst (new_StypAddSub l op r d p n)) = p.
Proof. alloc_step. repeat alloc_destruct. reflexivity. Qed.

Lemma new_StypMulDiv_priority l op r d p n :
  priority_of (fst (new_StypMulDiv l op r d p n)) = p.
Proof. alloc_step. repeat alloc_destruct. reflexivity. Qed.

Lemma stypAddSub_priority l op r n :
  priority_of (fst (stypAddSub l op r n)) = priority_of l.
Proof.
  unfold stypAddSub. destruct (type_of r); try reflexivity;
    apply new_StypAddSub_priority.
Qed.

Lemma stypMul_priority l r n :
  priority_of (fst (stypMul l r n)) = priority_of l.
Proof.
  unfold stypMul. destruct (negb (to_boolean r)).
  - apply prioritize_priority.
  - destruct (strict_eq r 1%float).
    + apply prioritize_priority.
    + apply new_StypMulDiv_priority.
Qed.

Lemma stypDiv_priority l r n :
  priority_of (fst (stypDiv l r n)) = priority_of l.
Proof.
  unfold stypDiv. destruct (strict_eq r 1%float).
  - apply prioritize_priority.
  - apply new_StypMulDiv_priority.
Qed.

(** X2: the receiver's priority wins.  The result of [add], [sub], [mul],
    [div] and [negate] carries the priority of the receiver, whatever the
    priority of the operand. *)
Theorem operations_keep_priority (a b : StypNumeric) (m : number) (n : nat) :
  priority_of (fst (add a b n)) = priority_of a
  /\ priority_of (fst (sub a b n)) = priority_of a
  /\ priority_of (fst (mul a m n)) = priority_of a
  /\ priority_of (fst (div a m n)) = priority_of a
  /\ priority_of (fst (negate a n)) = priority_of a.
Proof.
  repeat split.
  - destruct a as [z q|o val u d q|o l op r d q|o l op r d q]; simpl.
    + apply prioritize_priority.
    + destruct b as [? ?|? ? u' ? ?|? ? ? ? ? ?|? ? ? ? ? ?];
        try apply (stypAddSub_priority (StypDimension o val u d q)).
      destruct (String.eqb u u').
      * apply stypDimension_priority.
      * apply (stypAddSub_priority (StypDimension o val u d q)).
    + apply (stypAddSub_priority (StypAddSub o l op r d q)).
    + apply (stypAddSub_priority (StypMulDiv o l op r d q)).
  - destruct a as [z q|o val u d q|o l op r d q|o l op r d q]; simpl.
    + unfold bind. destruct (negate b n) as [b' n1].
      apply prioritize_priority.
    + destruct b as [? ?|? ? u' ? ?|? ? ? ? ? ?|? ? ? ? ? ?];
        try apply (stypAddSub_priority (StypDimension o val u d q)).
      destruct (String.eqb u u').
      * apply stypDimension_priority.
      * apply (stypAddSub_priority (StypDimension o val u d q)).
    + apply (stypAddSub_priority (StypAddSub o l op r d q)).
    + apply (stypAddSub_priority (StypMulDiv o l op r d q)).
  - destruct a as [z q|o val u d q|o l op r d q|o l op r d q]; simpl.
    + reflexivity.
    + destruct (strict_eq m 1%float); [reflexivity|].
      apply stypDimension_priority.
    + apply (stypMul_priority (StypAddSub o l op r d q)).
    + unfold bind.
      destruct (match op with
                | OpMul => stypMul l (r * m)%float
                | OpDiv => stypDiv l (r / m)%float
                end n) as [v' n1].
      apply prioritize_priority.
  - destruct a as [z q|o val u d q|o l op r d q|o l op r d q]; simpl.
    + reflexivity.
    + destruct (strict_eq m 1%float); [reflexivity|].
      apply stypDimension_priority.
    + apply (stypDiv_priority (StypAddSub o l op r d q)).
    + unfold bind.
      destruct (match op with
                | OpDiv => stypDiv l (r * m)%float
                | OpMul => stypMul l (r / m)%float
                end n) as [v' n1].
      apply prioritize_priority.
  - apply negate_priority.
Qed.

(** *** Zero stays canonical in a unitless-zero kind *)

(** Every plain dimension inside the value holds a truthy number. *)
Fixpoint dims_truthy (v : StypNumeric) : bool :=
  match v with
  | Zero _ _ => true
  | StypDimension _ val _ _ _ => to_boolean val
  | StypAddSub _ l _ r _ _ => dims_truthy l && dims_truthy r
  | StypMulDiv _ l _ _ _ _ => dims_truthy l
  end.

Lemma dims_truthy_prioritize (v : StypNumeric) :
  forall p n, dims_truthy (fst (prioritize v p n)) = dims_truthy v.
Proof.
  induction v as [z q|o val u d q|o l IHl op r IHr d q|o l IHl op r d q];
    intros p n; simpl.
  - destruct p; reflexivity.
  - destruct (Priority_eqb q p); reflexivity.
  - destruct (Priority_eqb q p); simpl; [reflexivity|].
    alloc_step.
    specialize (IHr PUsual n).
    destruct (prioritize r PUsual n) as [r' n1]; simpl in *.
    specialize (IHl PUsual (S n1)).
    destruct (prioritize l PUsual (S n1)) as [l' n2]; simpl in *.
    congruence.
  - destruct (Priority_eqb q p); simpl; [reflexivity|].
    alloc_step.
    specialize (IHl PUsual (S n)).
    destruct (prioritize l PUsual (S n)) as [l' n2]; simpl in *.
    congruence.
Qed.

Lemma dims_truthy_stypDimension z val unit p n :
  dims_truthy (fst (stypDimension val unit (UnitlessZero z) p n)) = true.
Proof.
  unfold stypDimension. destruct (to_boolean val) eqn:T.
  - exact T.
  - simpl. destruct p; reflexivity.
Qed.

Lemma dims_truthy_new_StypAddSub l op r d p n :
  dims_truthy (fst (new_StypAddSub l op r d p n))
  = dims_truthy l && dims_truthy r.
Proof.
  alloc_step.
  pose proof (dims_truthy_prioritize r PUsual n) as Dr.
  destruct (prioritize r PUsual n) as [r' n1]; simpl in *.
  pose proof (dims_truthy_prioritize l PUsual (S n1)) as Dl.
  destruct (prioritize l PUsual (S n1)) as [l' n2]; simpl in *.
  congruence.
Qed.

Lemma dims_truthy_new_StypMulDiv l op r d p n :
  dims_truthy (fst (new_StypMulDiv l op r d p n)) = dims_truthy l.
Proof.
  alloc_step.
  pose proof (dims_truthy_prioritize l PUsual (S n)) as Dl.
  destruct (prioritize l PUsual (S n)) as [l' n2]; simpl in *.
  congruence.
Qed.

Lemma dims_truthy_negate z (v : StypNumeric) :
  forall n, wf (UnitlessZero z) v = true -> dims_truthy v = true ->
            dims_truthy (fst (negate v n)) = true.
Proof.
  induction v as [z' q|o val u d q|o l IHl op r IHr d q|o l IHl op r d q];
    intros n W T.
  - reflexivity.
  - apply wf_dim in W. simpl in W. subst d. simpl.
    apply dims_truthy_stypDimension.
  - apply wf_parts_AddSub in W as (-> & Wl & Wr & _ & _).
    simpl in T. apply andb_prop in T as [Tl Tr].
    destruct op; simpl.
    + unfold bind. specialize (IHl n Wl Tl).
      destruct (negate l n) as [l' n1]; simpl in *.
      now rewrite dims_truthy_new_StypAddSub, IHl, Tr.
    + now rewrite dims_truthy_new_StypAddSub, Tl, Tr.
  - simpl in *. now rewrite dims_truthy_new_StypMulDiv.
Qed.

Lemma dims_truthy_stypAddSub l op r n :
  dims_truthy l = true -> dims_truthy r = true ->
  dims_truthy (fst (stypAddSub l op r n)) = true.
Proof.
  intros Tl Tr. unfold stypAddSub.
  destruct (type_of r); try exact Tl;
    now rewrite dims_truthy_new_StypAddSub, Tl, Tr.
Qed.

Lemma dims_truthy_stypMul z l r n :
  wf (UnitlessZero z) l = true -> dims_truthy l = true ->
  dims_truthy (fst (stypMul l r n)) = true.
Proof.
  intros W T. unfold stypMul. rewrite (wf_dim _ _ W).
  destruct (negb (to_boolean r)).
  - simpl. destruct (priority_of l); reflexivity.
  - destruct (strict_eq r 1%float).
    + now rewrite dims_truthy_prioritize.
    + now rewrite dims_truthy_new_StypMulDiv.
Qed.

Lemma dims_truthy_stypDiv l r n :
  dims_truthy l = true -> dims_truthy (fst (stypDiv l r n)) = true.
Proof.
  intros T. unfold stypDiv.
  destruct (strict_eq r 1%float).
  - now rewrite dims_truthy_prioritize.
  - now rewrite dims_truthy_new_StypMulDiv.
Qed.

(** X3: in a unitless-zero kind no plain dimension ever holds a falsy
    number.  [Kind.of] gives such values, and from well-formed operands
    without a falsy dimension every operation gives a value without one: a
    result that is numerically zero (or not a number) is the [Zero]
    object. *)
Theorem zero_stays_canonical (z : ZeroByPriority) (a b : StypNumeric)
        (m val : number) (unit : string) (p : Priority) (n : nat) :
  wf (UnitlessZero z) a = true -> wf (UnitlessZero z) b = true ->
  dims_truthy a = true -> dims_truthy b = true ->
  dims_truthy (fst (Kind_of (UnitlessZero z) val unit n)) = true
  /\ dims_truthy (fst (add a b n)) = true
  /\ dims_truthy (fst (sub a b n)) = true
  /\ dims_truthy (fst (mul a m n)) = true
  /\ dims_truthy (fst (div a m n)) = true
  /\ dims_truthy (fst (negate a n)) = true
  /\ dims_truthy (fst (prioritize a p n)) = true.
Proof.
  intros Wa Wb Ta Tb. repeat split.
  - simpl. destruct (to_boolean val) eqn:T; [exact T | reflexivity].
  - destruct a as [z' q|o v u d q|o l op r d q|o l op r d q]; simpl.
    + now rewrite dims_truthy_prioritize.
    + destruct b as [? ?|? ? u' ? ?|? ? ? ? ? ?|? ? ? ? ? ?];
        try (now apply dims_truthy_stypAddSub).
      destruct (String.eqb u u'); [|now apply dims_truthy_stypAddSub].
      apply wf_dim in Wa. simpl in Wa. subst d.
      apply dims_truthy_stypDimension.
    + now apply dims_truthy_stypAddSub.
    + now apply dims_truthy_stypAddSub.
  - destruct a as [z' q|o v u d q|o l op r d q|o l op r d q]; simpl.
    + unfold bind. pose proof (dims_truthy_negate z b n Wb Tb) as N.
      destruct (negate b n) as [b' n1]; simpl in *.
      now rewrite dims_truthy_prioritize.
    + destruct b as [? ?|? ? u' ? ?|? ? ? ? ? ?|? ? ? ? ? ?];
        try (now apply dims_truthy_stypAddSub).
      destruct (String.eqb u u'); [|now apply dims_truthy_stypAddSub].
      apply wf_dim in Wa. simpl in Wa. subst d.
      apply dims_truthy_stypDimension.
    + now apply dims_truthy_stypAddSub.
    + now apply dims_truthy_stypAddSub.
  - destruct a as [z' q|o v u d q|o l op r d q|o l op r d q]; simpl.
    + reflexivity.
    + destruct (strict_eq m 1%float); [exact Ta|].
      apply wf_dim in Wa. simpl in Wa. subst d.
      apply dims_truthy_stypDimension.
    + now apply (dims_truthy_stypMul z).
    + apply wf_parts_MulDiv in Wa as (-> & Wl & _). simpl in Ta.
      unfold bind. destruct op.
      * pose proof (dims_truthy_stypMul z l (r * m)%float n Wl Ta) as D.
        destruct (stypMul l (r * m)%float n) as [v' n1]; simpl in *.
        now rewrite dims_truthy_prioritize.
      * pose proof (dims_truthy_stypDiv l (r / m)%float n Ta) as D.
        destruct (stypDiv l (r / m)%float n) as [v' n1]; simpl in *.
        now rewrite dims_truthy_prioritize.
  - destruct a as [z' q|o v u d q|o l op r d q|o l op r d q]; simpl.
    + reflexivity.
    + destruct (strict_eq m 1%float); [exact Ta|].
      apply wf_dim in Wa. simpl in Wa. subst d.
      apply dims_truthy_stypDimension.
    + now apply dims_truthy_stypDiv.
    + apply wf_parts_MulDiv in Wa as (-> & Wl & _). simpl in Ta.
      unfold bind. destruct op.
      * pose proof (dims_truthy_stypMul z l (r / m)%float n Wl Ta) as D.
        destruct (stypMul l (r / m)%float n) as [v' n1]; simpl in *.
        now rewrite dims_truthy_prioritize.
      * pose proof (dims_truthy_stypDiv l (r * m)%float n Ta) as D.
        destruct (stypDiv l (r * m)%float n) as [v' n1]; simpl in *.
        now rewrite dims_truthy_prioritize.
  - now apply (dims_truthy_negate z).
  - now rewrite dims_truthy_prioritize.
Qed.

(** X3, at [12px - 12px]. *)
Lemma zero_stays_canonical_witness :
  dims_truthy (fst (sub Samples.px12 Samples.px12 20)) = true.
Proof.
  exact (proj1 (proj2 (proj2
           (zero_stays_canonical
              {| zbp_dim := 0; zbp_usual := 1; zbp_important := 2 |}
              Samples.px12 Samples.px12 2%float 0%float "px" PUsual 20
              eq_refl eq_refl eq_refl eq_refl)))).
Defined.

(** *** Equality of values *)

Lemma same_object_sym (a b : StypNumeric) : same_object a b = same_object b a.
Proof. apply Nat.eqb_sym. Qed.

Lemma Priority_eqb_sym (p q : Priority) : Priority_eqb p q = Priority_eqb q p.
Proof. destruct p, q; reflexivity. Qed.

Lemma styp_is_sym (a : StypNumeric) :
  forall b, styp_is a (VStruct b) = styp_is b (VStruct a).
Proof.
  induction a as [z q|o val u d q|o l IHl op r IHr d q|o l IHl op r d q];
    intros b;
    destruct b as [z' q'|o' val' u' d' q'|o' l' op' r' d' q'
                   |o' l' op' r' d' q'];
    cbn [styp_is type_of priority_of];
    rewrite (same_object_sym _ _); try reflexivity.
  - now rewrite Priority_eqb_sym.
  - now rewrite (String.eqb_sym u u'), (strict_eq_sym val val'),
      (Priority_eqb_sym q q').
  - rewrite (IHl l'), (IHr r'), (same_object_sym r r'),
      (Priority_eqb_sym q q').
    destruct op, op'; reflexivity.
  - rewrite (IHl l'), (strict_eq_sym r r'), (Priority_eqb_sym q q').
    destruct op, op'; reflexivity.
Qed.

(** X4: [stypValuesEqual] is symmetric, also between two structured
    values, where it asks the first one's [is] only. *)
Theorem stypValuesEqual_sym (first second : StypValue) :
  stypValuesEqual first second = stypValuesEqual second first.
Proof.
  unfold stypValuesEqual.
  destruct first as [s|k|b| |v], second as [s'|k'|b'| |v'];
    cbn [strict_equals]; try reflexivity.
  - now rewrite String.eqb_sym.
  - now rewrite strict_eq_sym.
  - destruct b, b'; reflexivity.
  - rewrite same_object_sym. now rewrite (styp_is_sym v v').
Qed.

(** X5: [stypValuesEqual(v, v)] holds for every value but the number
    [NaN]. *)
Theorem stypValuesEqual_refl (v : StypValue) :
  stypValuesEqual v v
  = match v with
    | VNumber k => negb (PrimFloat.is_nan k)
    | _ => true
    end.
Proof.
  unfold stypValuesEqual. destruct v as [s|k|b| |v]; cbn [strict_equals].
  - now rewrite String.eqb_refl.
  - rewrite strict_eq_refl. now destruct (PrimFloat.is_nan k).
  - now destruct b.
  - reflexivity.
  - now rewrite same_object_refl.
Qed.

(** X6: two structured values that [is] equates are the same object, or
    have the same type and the same priority. *)
Theorem styp_is_agrees (a b : StypNumeric) :
  styp_is a (VStruct b) = true ->
  same_object a b = true
  \/ (type_of a = type_of b /\ priority_of a = priority_of b).
Proof.
  destruct a as [z q|o val u d q|o l op r d q|o l op r d q];
    cbn [styp_is]; intros H; apply orb_prop in H as [H|H]; auto; right.
  - destruct b; simpl in *; try discriminate.
    split; [reflexivity|]. symmetry. now apply Priority_eqb_eq.
  - destruct b; simpl in *; try discriminate.
    apply andb_prop in H as [_ H]. split; [reflexivity|].
    now apply Priority_eqb_eq.
  - destruct b; simpl in *; try discriminate.
    apply andb_prop in H as [_ H]. split; [reflexivity|].
    now apply Priority_eqb_eq.
  - destruct b; simpl in *; try discriminate.
    apply andb_prop in H as [_ H]. split; [reflexivity|].
    now apply Priority_eqb_eq.
Qed.

(** X6, at [12px] and a copy of it. *)
Lemma styp_is_agrees_witness :
  same_object Samples.px12
    (StypDimension 20 12%float "px" Samples.length_kind PUsual) = true
  \/ (type_of Samples.px12
      = type_of (StypDimension 20 12%float "px" Samples.length_kind PUsual)
      /\ priority_of Samples.px12
         = priority_of
             (StypDimension 20 12%float "px" Samples.length_kind PUsual)).
Proof.
  exact (styp_is_agrees Samples.px12
           (StypDimension 20 12%float "px" Samples.length_kind PUsual)
           eq_refl).
Defined.

(** *** Priority changes *)

(** X7: [prioritize(p)] gives a value of priority [p] with the kind, the
    type and the calc nesting of the receiver; prioritizing the result to
    [p] again returns that same object and allocates nothing. *)
Theorem prioritize_settles (v : StypNumeric) (p : Priority) (n n' : nat) :
  priority_of (fst (prioritize v p n)) = p
  /\ dim_of (fst (prioritize v p n)) = dim_of v
  /\ type_of (fst (prioritize v p n)) = type_of v
  /\ calc_depth (fst (prioritize v p n)) = calc_depth v
  /\ prioritize (fst (prioritize v p n)) p n' = (fst (prioritize v p n), n').
Proof.
  repeat split.
  - apply prioritize_priority.
  - apply prioritize_dim.
  - apply prioritize_type.
  - apply prioritize_calc_depth.
  - rewrite <- (prioritize_priority v p n) at 2. apply prioritize_same.
Qed.

(** The number a dimension or a multiplication/division node holds itself
    is not [NaN]. *)
Definition own_number_comparable (v : StypNumeric) : bool :=
  match v with
  | StypDimension _ val _ _ _ => strict_eq val val
  | StypMulDiv _ _ _ r _ _ => strict_eq r r
  | _ => true
  end.

Lemma styp_is_copy_Dimension o o' val u d d' p :
  strict_eq val val = true ->
  styp_is (StypDimension o val u d p) (VStruct (StypDimension o' val u d' p))
  = true.
Proof.
  intros H. cbn [styp_is].
  rewrite String.eqb_refl, H, Priority_eqb_refl. apply orb_true_r.
Qed.

Lemma styp_is_copy_AddSub o o' l op r d d' p :
  styp_is (StypAddSub o l op r d p) (VStruct (StypAddSub o' l op r d' p))
  = true.
Proof.
  cbn [styp_is].
  rewrite styp_is_same, same_object_refl, Priority_eqb_refl.
  destruct op; apply orb_true_r.
Qed.

Lemma styp_is_copy_MulDiv o o' l op r d d' p :
  strict_eq r r = true ->
  styp_is (StypMulDiv o l op r d p) (VStruct (StypMulDiv o' l op r d' p))
  = true.
Proof.
  intros H. cbn [styp_is].
  rewrite styp_is_same, H, Priority_eqb_refl.
  destruct op; apply orb_true_r.
Qed.

(** X8: changing the priority of a well-formed value and changing it back
    gives a value the receiver's [is] accepts, unless the number the
    receiver itself holds is [NaN]. *)
Theorem prioritize_round_trip (k : Kind) (v : StypNumeric) (p : Priority)
        (n n' : nat) :
  wf k v = true -> own_number_comparable v = true ->
  styp_is v (VStruct (fst (prioritize (fst (prioritize v p n))
                                      (priority_of v) n'))) = true.
Proof.
  intros W C.
  destruct (Priority_eqb (priority_of v) p) eqn:E.
  - apply Priority_eqb_eq in E. subst p.
    rewrite prioritize_same. simpl. rewrite prioritize_same.
    apply styp_is_same.
  - destruct v as [z q|o val u d q|o l op r d q|o l op r d q].
    + destruct p, q; apply (styp_is_same (Zero z _)).
    + cbn [priority_of] in *. cbn [prioritize]. rewrite E. alloc_step.
      rewrite Priority_eqb_sym, E. simpl.
      now apply styp_is_copy_Dimension.
    + apply wf_parts_AddSub in W as (_ & _ & _ & Pl & Pr).
      cbn [priority_of] in *. cbn [prioritize]. rewrite E.
      unfold bind, fresh, ret.
      rewrite (usual_of_usual r n Pr), (usual_of_usual l (S n) Pl).
      cbn [fst prioritize]. rewrite Priority_eqb_sym, E.
      unfold bind, fresh, ret.
      rewrite (usual_of_usual r n' Pr), (usual_of_usual l (S n') Pl).
      apply styp_is_copy_AddSub.
    + apply wf_parts_MulDiv in W as (_ & _ & Pl).
      cbn [priority_of] in *. cbn [prioritize]. rewrite E.
      unfold bind, fresh, ret.
      rewrite (usual_of_usual l (S n) Pl).
      cbn [fst prioritize]. rewrite Priority_eqb_sym, E.
      unfold bind, fresh, ret.
      rewrite (usual_of_usual l (S n') Pl).
      now apply styp_is_copy_MulDiv.
Qed.

(** X8, at [12px] made important and usual again. *)
Lemma prioritize_round_trip_witness :
  styp_is Samples.px12
    (VStruct (fst (prioritize (fst (prioritize Samples.px12 PImportant 20))
                              (priority_of Samples.px12) 21))) = true.
Proof.
  exact (prioritize_round_trip Samples.length_kind Samples.px12 PImportant
           20 21 eq_refl eq_refl).
Defined.

(** *** Negation and cancellation *)

(** The values [negate] takes back to themselves when applied twice:
    everything but an addition node, a dimension with a falsy number, and
    a multiplication/division node whose scalar is [NaN]. *)
Definition negate_round_trips (v : StypNumeric) : bool :=
  match v with
  | Zero _ _ => true
  | StypDimension _ val _ _ _ => to_boolean val
  | StypAddSub _ _ OpAdd _ _ _ => false
  | StypAddSub _ _ OpSub _ _ _ => true
  | StypMulDiv _ _ _ r _ _ => strict_eq r r
  end.

(** X9: negating twice gives back a value the receiver's [is] accepts,
    for a zero, a dimension with a truthy number, a subtraction node, and
    a multiplication or division node whose scalar is not [NaN]. *)
Theorem negate_involutive (k : Kind) (v : StypNumeric) (n n' : nat) :
  wf k v = true -> negate_round_trips v = true ->
  styp_is v (VStruct (fst (negate (fst (negate v n)) n'))) = true.
Proof.
  intros W R.
  destruct v as [z q|o val u d q|o l op r d q|o l op r d q].
  - apply styp_is_same.
  - cbn [negate_round_trips] in R. cbn [negate]. unfold stypDimension.
    rewrite to_boolean_opp, R.
    unfold new_StypDimension, bind, fresh, ret. cbn [fst negate].
    unfold stypDimension. rewrite opp_involutive, R.
    unfold new_StypDimension, bind, fresh, ret. cbn [fst].
    apply styp_is_copy_Dimension. now apply to_boolean_not_nan.
  - destruct op; [discriminate|].
    apply wf_parts_AddSub in W as (_ & _ & _ & Pl & Pr).
    cbn [negate]. unfold new_StypAddSub, usual, bind, fresh, ret.
    rewrite (usual_of_usual l n Pl), (usual_of_usual r (S n) Pr).
    cbn [fst negate]. unfold new_StypAddSub, usual, bind, fresh, ret.
    rewrite (usual_of_usual r n' Pr), (usual_of_usual l (S n') Pl).
    apply styp_is_copy_AddSub.
  - apply wf_parts_MulDiv in W as (_ & _ & Pl).
    cbn [negate_round_trips] in R.
    cbn [negate]. unfold new_StypMulDiv, usual, bind, fresh, ret.
    rewrite (usual_of_usual l (S n) Pl).
    cbn [fst negate]. unfold new_StypMulDiv, usual, bind, fresh, ret.
    rewrite (usual_of_usual l (S n') Pl). cbn [fst].
    rewrite opp_involutive. now apply styp_is_copy_MulDiv.
Qed.

(** X9, at [12px]. *)
Lemma negate_involutive_witness :
  styp_is Samples.px12
          (VStruct (fst (negate (fst (negate Samples.px12 20)) 21))) = true.
Proof.
  exact (negate_involutive Samples.length_kind Samples.px12 20 21
           eq_refl eq_refl).
Defined.

(** Negating [12px + 2em] twice gives [2em - -12px], which [is] rejects. *)
Example negate_twice_addition :
  fst (negate (fst (negate Samples.px12_plus_em2 20)) 22)
  = StypAddSub 22 Samples.em2 OpSub
      (StypDimension 20 (-12)%float "px" Samples.length_kind PUsual)
      Samples.length_kind PUsual
  /\ styp_is Samples.px12_plus_em2
       (VStruct (fst (negate (fst (negate Samples.px12_plus_em2 20)) 22)))
     = false.
Proof. split; reflexivity. Qed.

(** X10: a dimension cancels itself.  For two dimensions with the same
    number and unit, [a.sub(b)] is the zero of the kind of [a] with the
    priority of [a], whatever the number (also for infinities); and when
    the number is truthy, so is [a.add(b.negate())]. *)
Theorem dimension_cancels (o o' : nat) (val : number) (u : string)
        (d d' : Kind) (p p' : Priority) (n : nat) :
  sub (StypDimension o val u d p) (StypDimension o' val u d' p') n
  = prioritize (Kind_zero d) p n
  /\ (to_boolean val = true ->
      (let (b', n1) := negate (StypDimension o' val u d' p') n in
       add (StypDimension o val u d p) b' n1)
      = prioritize (Kind_zero d) p (S n)).
Proof.
  split.
  - cbn [sub]. rewrite String.eqb_refl. unfold stypDimension.
    now rewrite to_boolean_sub_diag.
  - intros T. cbn [negate]. unfold stypDimension at 1.
    rewrite to_boolean_opp, T.
    unfold new_StypDimension, bind, fresh, ret. cbn [add].
    rewrite String.eqb_refl. unfold stypDimension.
    now rewrite <- sub_add_opp, to_boolean_sub_diag.
Qed.

(** X10, at [12px + (-12px)]. *)
Lemma dimension_cancels_witness :
  (let (b', n1) := negate Samples.px12 20 in add Samples.px12 b' n1)
  = (Samples.length_zero, 21).
Proof.
  exact (proj2 (dimension_cancels 5 5 12%float "px" Samples.length_kind
                  Samples.length_kind PUsual PUsual 20) eq_refl).
Defined.

(** *** Nesting *)

Lemma stypAddSub_calc_depth_le l op r n :
  calc_depth (fst (stypAddSub l op r n))
  <= S (Nat.max (calc_depth l) (calc_depth r)).
Proof.
  unfold stypAddSub. destruct (type_of r);
    rewrite ?new_StypAddSub_calc_depth; simpl; lia.
Qed.

(** X11: one operation adds at most one level of calc nesting: [add] and
    [sub] to the deeper operand, [mul] and [div] to the receiver. *)
Theorem operations_nest_once (a b : StypNumeric) (m : number) (n : nat) :
  calc_depth (fst (add a b n)) <= S (Nat.max (calc_depth a) (calc_depth b))
  /\ calc_depth (fst (sub a b n))
     <= S (Nat.max (calc_depth a) (calc_depth b))
  /\ calc_depth (fst (mul a m n)) <= S (calc_depth a)
  /\ calc_depth (fst (div a m n)) <= S (calc_depth a).
Proof.
  repeat split.
  - destruct a as [z q|o val u d q|o l op r d q|o l op r d q];
      cbn [add]; try apply stypAddSub_calc_depth_le.
    + rewrite prioritize_calc_depth. simpl. lia.
    + destruct b as [? ?|? ? u' ? ?|? ? ? ? ? ?|? ? ? ? ? ?];
        try apply stypAddSub_calc_depth_le.
      destruct (String.eqb u u'); [|apply stypAddSub_calc_depth_le].
      rewrite stypDimension_calc_depth. lia.
  - destruct a as [z q|o val u d q|o l op r d q|o l op r d q];
      cbn [sub]; try apply stypAddSub_calc_depth_le.
    + unfold bind. pose proof (negate_calc_depth b n) as D.
      destruct (negate b n) as [b' n1]; simpl in *.
      rewrite prioritize_calc_depth. lia.
    + destruct b as [? ?|? ? u' ? ?|? ? ? ? ? ?|? ? ? ? ? ?];
        try apply stypAddSub_calc_depth_le.
      destruct (String.eqb u u'); [|apply stypAddSub_calc_depth_le].
      rewrite stypDimension_calc_depth. lia.
  - destruct a as [z q|o val u d q|o l op r d q|o l op r d q]; cbn [mul].
    + simpl. lia.
    + destruct (strict_eq m 1%float); [simpl; lia|].
      rewrite stypDimension_calc_depth. lia.
    + apply stypMul_calc_depth.
    + pose proof (proj1 (mul_div_MulDiv_calc_depth o l op r d q m n)) as D.
      cbn [mul] in D. lia.
  - destruct a as [z q|o val u d q|o l op r d q|o l op r d q]; cbn [div].
    + simpl. lia.
    + destruct (strict_eq m 1%float); [simpl; lia|].
      rewrite stypDimension_calc_depth. lia.
    + apply stypDiv_calc_depth.
    + pose proof (proj2 (mul_div_MulDiv_calc_depth o l op r d q m n)) as D.
      cbn [div] in D. lia.
Qed.

End ValueFacts.

Module ValueText.

Import JsNumber Value.

Open Scope string_scope.

Section Text.

(** [ToString] applied to a number, as [+] and template literals do. *)
Variable number_to_string : number -> string.

Definition AddSubOp_text (op : AddSubOp) : string :=
  match op with OpAdd => "+" | OpSub => "-" end.

Definition MulDivOp_text (op : MulDivOp) : string :=
  match op with OpMul => "*" | OpDiv => "/" end.

(** [toFormula()] of the four classes. *)
Fixpoint toFormula (v : StypNumeric) : string :=
  match v with
  | Zero _ _ => "0"
  | StypDimension _ val unit _ _ => number_to_string val ++ unit
  | StypAddSub _ l op r _ _ =>
      "(" ++ toFormula l ++ " " ++ AddSubOp_text op ++ " " ++ toFormula r
      ++ ")"
  | StypMulDiv _ l op r _ _ =>
      "(" ++ toFormula l ++ " " ++ MulDivOp_text op ++ " "
      ++ number_to_string r ++ ")"
  end.

(** [Zero.toString()]. *)
Definition Zero_toString (priority : Priority) : string :=
  match priority with
  | PImportant => "0 !important"
  | PUsual => "0"
  end.

(** [StypCalcBase.toString()]. *)
Definition StypCalcBase_toString (v : StypNumeric) : string :=
  let string := "calc" ++ toFormula v in
  match priority_of v with
  | PImportant => string ++ " !important"
  | PUsual => string
  end.

Fixpoint last_char (s : string) : option ascii :=
  match s with
  | EmptyString => None
  | String c EmptyString => Some c
  | String _ s' => last_char s'
  end.

Lemma last_char_append (a b : string) :
  b <> "" -> last_char (a ++ b) = last_char b.
Proof.
  intros Hb. induction a as [|c a IH]; [reflexivity|].
  simpl. rewrite <- IH. destruct (a ++ b) eqn:E; [|reflexivity].
  destruct a; simpl in E; [congruence | discriminate].
Qed.

Lemma endsWith_last_char (s suffix : string) :
  suffix <> "" -> endsWith s suffix = true ->
  last_char s = last_char suffix.
Proof.
  intros Hs E. rewrite (endsWith_split _ _ E). now apply last_char_append.
Qed.

Lemma trimEnd_id (s : string) :
  forall d, last_char s = Some d -> is_white_space d = false ->
            trimEnd s = s.
Proof.
  induction s as [|c s IH]; intros d L W; [discriminate|].
  destruct s as [|c' s'].
  - simpl in *. injection L as ->. now rewrite W.
  - change (last_char (String c (String c' s')))
      with (last_char (String c' s')) in L.
    change (trimEnd (String c (String c' s')))
      with (match trimEnd (String c' s') with
            | EmptyString =>
                if is_white_space c then EmptyString
                else String c EmptyString
            | t => String c t
            end).
    now rewrite (IH d L W).
Qed.

(** The formula of a calc node is parenthesized. *)
Lemma toFormula_calc (v : StypNumeric) :
  type_of v = type_calc ->
  exists body, toFormula v = "(" ++ body ++ ")".
Proof.
  destruct v as [z q|o val u d q|o l op r d q|o l op r d q];
    try discriminate; intros _; cbn [toFormula].
  - exists (toFormula l ++ " " ++ AddSubOp_text op ++ " " ++ toFormula r).
    now rewrite !Selector.append_assoc.
  - exists (toFormula l ++ " " ++ MulDivOp_text op ++ " "
            ++ number_to_string r).
    now rewrite !Selector.append_assoc.
Qed.

Lemma toFormula_prioritize (v : StypNumeric) :
  forall p n, toFormula (fst (prioritize v p n)) = toFormula v.
Proof.
  induction v as [z q|o val u d q|o l IHl op r IHr d q|o l IHl op r d q];
    intros p n; cbn [prioritize].
  - destruct p; reflexivity.
  - destruct (Priority_eqb q p); reflexivity.
  - destruct (Priority_eqb q p); [reflexivity|].
    unfold bind, fresh, ret.
    specialize (IHr PUsual n).
    destruct (prioritize r PUsual n) as [r' n1]; cbn [fst] in *.
    specialize (IHl PUsual (S n1)).
    destruct (prioritize l PUsual (S n1)) as [l' n2]; cbn [fst] in *.
    cbn [toFormula]. now rewrite IHl, IHr.
  - destruct (Priority_eqb q p); [reflexivity|].
    unfold bind, fresh, ret.
    specialize (IHl PUsual (S n)).
    destruct (prioritize l PUsual (S n)) as [l' n2]; cbn [fst] in *.
    cbn [toFormula]. now rewrite IHl.
Qed.

(** X12: the text of a calc node splits back.  [stypSplitPriority] of
    [toString()] gives the text [calc(...)] of the formula, with
    ['important'] exactly when the node is important. *)
Theorem calc_text_splits (v : StypNumeric) (n : nat) :
  type_of v = type_calc ->
  stypSplitPriority (VString (StypCalcBase_toString v)) n
  = (match priority_of v with
     | PImportant => Split_important (VString ("calc" ++ toFormula v))
     | PUsual => Split_value (VString ("calc" ++ toFormula v))
     end, n).
Proof.
  intros T. destruct (toFormula_calc v T) as [body B].
  assert (L : last_char ("calc" ++ toFormula v) = Some ")"%char).
  { rewrite B. change ("calc" ++ "(" ++ body ++ ")")
      with (("calc(" ++ body) ++ ")").
    now rewrite last_char_append. }
  unfold StypCalcBase_toString, stypSplitPriority.
  destruct (priority_of v).
  - destruct (endsWith ("calc" ++ toFormula v) IMPORTANT_CSS_SUFFIX) eqn:E;
      [|reflexivity].
    apply endsWith_last_char in E; [|discriminate].
    rewrite L in E. discriminate.
  - unfold IMPORTANT_CSS_SUFFIX.
    rewrite endsWith_append, length_append, Nat.add_sub.
    rewrite substring_0_append. unfold trim.
    change (trimStart ("calc" ++ toFormula v)) with ("calc" ++ toFormula v).
    now rewrite (trimEnd_id _ _ L eq_refl).
Qed.

(** X13: among strings, [Zero.is] accepts exactly the zero's own
    [toString()], and [stypSplitPriority] of that text gives "0" with the
    zero's priority. *)
Theorem Zero_is_own_text (z : ZeroByPriority) (p : Priority) (s : string)
        (n : nat) :
  styp_is (Zero z p) (VString s) = String.eqb s (Zero_toString p)
  /\ stypSplitPriority (VString (Zero_toString p)) n
     = (match p with
        | PImportant => Split_important (VString "0")
        | PUsual => Split_value (VString "0")
        end, n).
Proof.
  split.
  - cbn [styp_is].
    destruct (String.eqb_spec s "0") as [->|N0];
      [destruct p; reflexivity|].
    destruct (String.eqb_spec s "0 !important") as [->|N1];
      [destruct p; reflexivity|].
    destruct p; simpl; symmetry; now apply String.eqb_neq.
  - destruct p; reflexivity.
Qed.

(** X14: the formula does not depend on the priority, and the text of the
    important variant is the text of the usual variant followed by
    " !important". *)
Theorem text_of_priority_variants (v : StypNumeric) (p : Priority)
        (n n' : nat) :
  toFormula (fst (prioritize v p n)) = toFormula v
  /\ StypCalcBase_toString (fst (prioritize v PImportant n))
     = StypCalcBase_toString (fst (prioritize v PUsual n')) ++ " !important".
Proof.
  split; [apply toFormula_prioritize|].
  unfold StypCalcBase_toString.
  now rewrite !prioritize_priority, !toFormula_prioritize.
Qed.

End Text.

(** X12, at the important [calc(12px + 2em)], numbers printed as "1". *)
Lemma calc_text_splits_witness :
  stypSplitPriority
    (VString (StypCalcBase_toString (fun _ => "1")
                (StypAddSub 20 Samples.px12 OpAdd Samples.em2
                            Samples.length_kind PImportant))) 0
  = (Split_important (VString "calc(1px + 1em)"), 0).
Proof.
  exact (calc_text_splits (fun _ => "1")
           (StypAddSub 20 Samples.px12 OpAdd Samples.em2
                       Samples.length_kind PImportant) 0 eq_refl).
Defined.

End ValueText.

Module SplitFacts.

Import Value.

(** X15: on a structured value, [stypSplitPriority] returns a value of
    usual priority, and splitting that value again returns it unchanged,
    without priority and without allocation. *)
Theorem stypSplitPriority_struct_settles (v : StypNumeric) (n : nat) :
  exists u,
    (fst (stypSplitPriority (VStruct v) n) = Split_value (VStruct u)
     \/ fst (stypSplitPriority (VStruct v) n) = Split_important (VStruct u))
    /\ priority_of u = PUsual
    /\ forall n', stypSplitPriority (VStruct u) n'
                  = (Split_value (VStruct u), n').
Proof.
  cbn [stypSplitPriority]. destruct (priority_of v) eqn:P.
  - exists v. repeat split; auto.
    intros n'. cbn [stypSplitPriority]. now rewrite P.
  - unfold bind, ret, usual.
    pose proof (prioritize_priority v PUsual n) as U.
    destruct (prioritize v PUsual n) as [u n1]; cbn [fst] in *.
    exists u. repeat split; auto.
    intros n'. cbn [stypSplitPriority]. now rewrite U.
Qed.

(** A string keeps what precedes the last suffix only: a second suffix
    stays in the value. *)
Example stypSplitPriority_string_twice :
  stypSplitPriority (VString "red !important !important") 0
  = (Split_important (VString "red !important"), 0).
Proof. reflexivity. Qed.

End SplitFacts.

Module SelectorFacts.

Import Selector.
Open Scope string_scope.

Section Format.

Variable cssescId : string -> string.
Variable formatRaw : string -> string.

(** X16: [formatSelector] is a homomorphism: the empty selector has the
    empty text, the text of a concatenation is the concatenation of the
    texts, and a combinator between two selectors contributes its token. *)
Theorem formatSelector_concat (a b : Normalized) (k : Combinator) :
  formatSelector cssescId formatRaw [] = ""
  /\ formatSelector cssescId formatRaw (a ++ b)%list
     = formatSelector cssescId formatRaw a
       ++ formatSelector cssescId formatRaw b
  /\ formatSelector cssescId formatRaw (a ++ Comb k :: b)%list
     = formatSelector cssescId formatRaw a ++ Combinator_text k
       ++ formatSelector cssescId formatRaw b.
Proof.
  split; [reflexivity|]. split.
  - apply formatSelector_app.
  - now rewrite formatSelector_app, formatSelector_cons.
Qed.

(** The item with the qualifiers of its part replaced. *)
Definition with_qualifiers (f : NormalizedPart -> option (list string))
           (item : Item) : Item :=
  match item with
  | Comb k => Comb k
  | Part p => Part {| ns := ns p; e := e p; i := i p; c := c p; s := s p;
                      qualifiers := f p |}
  end.

(** X17: the text of a selector does not depend on the qualifiers of its
    parts. *)
Theorem formatSelector_ignores_qualifiers
        (f : NormalizedPart -> option (list string)) (selector : Normalized) :
  formatSelector cssescId formatRaw (map (with_qualifiers f) selector)
  = formatSelector cssescId formatRaw selector.
Proof.
  induction selector as [|item rest IH]; [reflexivity|].
  cbn [map]. rewrite !formatSelector_cons, IH.
  destruct item; reflexivity.
Qed.

Variable StypSelector : Type.
Variable stypSelector : StypSelector -> Normalized.
Variable rootSelector : StypSelector.

(** The selector starts with a part. *)
Definition starts_with_part (selector : Normalized) : bool :=
  match selector with
  | Part _ :: _ => true
  | _ => false
  end.

(** X18: when the normalized root selector starts with a part, so does
    the selector every rule is rendered with, and [ruleSelector] leaves
    such a selector as it is. *)
Theorem ruleSelector_anchored (selector : Normalized) :
  starts_with_part (stypSelector rootSelector) = true ->
  starts_with_part (ruleSelector StypSelector stypSelector rootSelector selector) = true
  /\ ruleSelector StypSelector stypSelector rootSelector
       (ruleSelector StypSelector stypSelector rootSelector selector)
     = ruleSelector StypSelector stypSelector rootSelector selector.
Proof.
  intros R.
  assert (A : starts_with_part
                (ruleSelector StypSelector stypSelector rootSelector selector) = true).
  { destruct selector as [|[p|k] rest]; cbn [ruleSelector isCombinator].
    - exact R.
    - reflexivity.
    - destruct (stypSelector rootSelector) as [|[q|k'] r']; try discriminate.
      reflexivity. }
  split; [exact A|].
  destruct (ruleSelector StypSelector stypSelector rootSelector selector) as [|[p|k] rest];
    try discriminate. reflexivity.
Qed.

End Format.

(** X18, at the root selector [body] and the rule selector [>]. *)
Lemma ruleSelector_anchored_witness :
  starts_with_part
    (ruleSelector Normalized (fun x => x)
       [Part {| ns := None; e := Some "body"; i := None; c := None;
                s := None; qualifiers := None |}]
       [Comb Child]) = true.
Proof.
  exact (proj1 (ruleSelector_anchored Normalized (fun x => x)
                  [Part {| ns := None; e := Some "body"; i := None;
                           c := None; s := None; qualifiers := None |}]
                  [Comb Child] eq_refl)).
Defined.

End SelectorFacts.

(** ** The style elements of the rules ([renderRule] with the default
    [addStyleSheet], [addStyleElement])

    The jobs of the rules share one [parent].  The renderers write rules
    into the style sheet they are given and touch nothing else of the
    document; the schedulers run one job at a time. *)

Module ProducerDom.

Section Document.

Variable CSSRule : Type.
Variable StypProperties : Type.

Definition CSSStyleSheet : Type := Producer.CSSStyleSheet CSSRule.

(** The document, as much as the jobs see of it: how many elements
    [document.createElement] has made (an element is known by its
    number), the children of [parent] in document order, and the rules
    of the style sheet of every element. *)
Record Document : Type := {
  created : nat;
  children : list nat;
  sheets : nat -> CSSStyleSheet
}.

Definition set_sheet (element : nat) (sheet : CSSStyleSheet)
           (sheets : nat -> CSSStyleSheet) : nat -> CSSStyleSheet :=
  fun element' => if element' =? element then sheet else sheets element'.

(** [addStyleElement(producer)] up to its [return]: a new [<style>]
    element, appended to [parent]; its sheet has no rule yet.  The
    [StyleSheetRef] it returns is known by the element. *)
Definition addStyleElement (document : Document) : nat * Document :=
  (created document,
   {| created := S (created document);
      children := children document ++ [created document];
      sheets := set_sheet (created document) [] (sheets document) |}).

(** [remove()] of the [StyleSheetRef]:
    [element.parentElement!.removeChild(element)]; for an element that
    is not a child of [parent], [parentElement] is [null] and the call
    throws. *)
Definition remove (element : nat) (document : Document)
  : option Document :=
  if existsb (Nat.eqb element) (children document)
  then Some {| created := created document;
               children := filter (fun child => negb (child =? element))
                                  (children document);
               sheets := sheets document |}
  else None.

(** The variables [sheetRef] of the rules, a rule known by its number. *)
Record State : Type := {
  document : Document;
  sheetRef : nat -> option nat
}.

Definition set_sheetRef (rule : nat) (ref : option nat)
           (refs : nat -> option nat) : nat -> option nat :=
  fun rule' => if rule' =? rule then ref else refs rule'.

(** What the renderer chain behind [producer.render(properties)] does:
    it never reads [producer.styleSheet], or it does and leaves [write
    sheet] in the sheet it found; either way it returns or throws. *)
Inductive Rendering : Type :=
| Untouched (threw : bool)
| Written (write : CSSStyleSheet -> CSSStyleSheet) (threw : bool).

Variable render : StypProperties -> Rendering.

(** How a job ends: it returns, a renderer threw, or a DOM call of
    [renderRule] itself threw. *)
Inductive Completion : Type := Returned | RendererThrew | DomError.

Definition completion (threw : bool) : Completion :=
  if threw then RendererThrew else Returned.

(** The getter [styleSheet] of the production:
    [if (!sheetRef) sheetRef = addStyleSheet(producer)]. *)
Definition styleSheet (rule : nat) (state : State) : nat * State :=
  match sheetRef state rule with
  | Some element => (element, state)
  | None =>
      let (element, document') := addStyleElement (document state) in
      (element,
       {| document := document';
          sheetRef := set_sheetRef rule (Some element) (sheetRef state) |})
  end.

Definition write_sheet (element : nat) (sheet : CSSStyleSheet)
           (state : State) : State :=
  {| document :=
       {| created := created (document state);
          children := children (document state);
          sheets := set_sheet element sheet (sheets (document state)) |};
     sheetRef := sheetRef state |}.

(** [producer.render(properties)]. *)
Definition produce (rule : nat) (properties : StypProperties)
           (state : State) : State * Completion :=
  match render properties with
  | Untouched threw => (state, completion threw)
  | Written write threw =>
      let (element, state') := styleSheet rule state in
      (write_sheet element (write (sheets (document state') element)) state',
       completion threw)
  end.

(** The job [renderProperties(properties)] of a rule schedules. *)
Definition renderProperties (rule : nat) (properties : StypProperties)
           (state : State) : State * Completion :=
  match sheetRef state rule with
  | Some element =>
      match Producer.clearProperties CSSRule
              (sheets (document state) element) with
      | Some cleared =>
          produce rule properties (write_sheet element cleared state)
      | None => (state, DomError)
      end
  | None => produce rule properties state
  end.

(** The job [removeStyle()] of a rule schedules: [sheetRef = undefined],
    then [lastSheetRef.remove()]. *)
Definition removeStyle (rule : nat) (state : State) : State * Completion :=
  match sheetRef state rule with
  | Some element =>
      let refs := set_sheetRef rule None (sheetRef state) in
      match remove element (document state) with
      | Some document' =>
          ({| document := document'; sheetRef := refs |}, Returned)
      | None =>
          ({| document := document state; sheetRef := refs |}, DomError)
      end
  | None => (state, Returned)
  end.

Inductive Job : Type :=
| Render (rule : nat) (properties : StypProperties)
| Remove (rule : nat).

Definition run_job (job : Job) (state : State) : State * Completion :=
  match job with
  | Render rule properties => renderProperties rule properties state
  | Remove rule => removeStyle rule state
  end.

(** The jobs of all rules run one after another, in any order; a job
    that throws does not stop the later ones. *)
Fixpoint run_jobs (jobs : list Job) (state : State)
  : State * list Completion :=
  match jobs with
  | [] => (state, [])
  | job :: jobs' =>
      let (state', how) := run_job job state in
      let (state'', hows) := run_jobs jobs' state' in
      (state'', how :: hows)
  end.

(** Before any job: no rule has a style sheet. *)
Definition initial (document : Document) : State :=
  {| document := document; sheetRef := fun _ => None |}.

(** How the renderers make a job end. *)
Definition rendered (job : Job) : Completion :=
  match job with
  | Render _ properties =>
      match render properties with
      | Untouched threw => completion threw
      | Written _ threw => completion threw
      end
  | Remove _ => Returned
  end.

(** What the jobs keep true of the children of [parent] and the
    references of the rules; [foreign] are the children [parent] had
    before. *)
Definition owned (foreign : list nat) (state : State) : Prop :=
  NoDup (children (document state))
  /\ (forall element,
         In element (children (document state)) ->
         element < created (document state))
  /\ (forall rule element,
         sheetRef state rule = Some element ->
         In element (children (document state))
         /\ ~ In element foreign)
  /\ (forall rule rule' element,
         sheetRef state rule = Some element ->
         sheetRef state rule' = Some element -> rule = rule')
  /\ (forall element,
         In element (children (document state)) ->
         In element foreign
         \/ exists rule, sheetRef state rule = Some element)
  /\ (forall element,
         In element foreign -> In element (children (document state))).

Lemma set_sheetRef_same rule ref refs :
  set_sheetRef rule ref refs rule = ref.
Proof. unfold set_sheetRef. now rewrite Nat.eqb_refl. Qed.

Lemma set_sheetRef_other rule ref refs rule' :
  rule' <> rule -> set_sheetRef rule ref refs rule' = refs rule'.
Proof.
  intros H. unfold set_sheetRef.
  now destruct (Nat.eqb_spec rule' rule).
Qed.

Lemma existsb_eqb_In (element : nat) (l : list nat) :
  In element l -> existsb (Nat.eqb element) l = true.
Proof.
  intros H. apply existsb_exists. exists element.
  split; [exact H | apply Nat.eqb_refl].
Qed.

Lemma In_without (element element' : nat) (l : list nat) :
  In element' (filter (fun child => negb (child =? element)) l)
  <-> In element' l /\ element' <> element.
Proof.
  rewrite filter_In, negb_true_iff, Nat.eqb_neq. reflexivity.
Qed.



Lemma owned_write_sheet foreign element sheet state :
  owned foreign state -> owned foreign (write_sheet element sheet state).
Proof. exact (fun H => H). Qed.

Lemma owned_addStyleElement foreign rule state :
  owned foreign state -> sheetRef state rule = None ->
  owned foreign (snd (styleSheet rule state)).
Proof.
  intros (N & B & A & I & L & F) E. unfold styleSheet. rewrite E.
  cbn [addStyleElement snd]. unfold owned. cbn [document children created sheetRef].
  assert (Fresh : ~ In (created (document state))
                       (children (document state))).
  { intros H. apply B in H. lia. }
  repeat split.
  - apply NoDup_app; [exact N | repeat constructor; intros [] |].
    intros e H [<-|[]]. now apply Fresh.
  - intros e H. apply in_app_or in H as [H|[<-|[]]]; [|lia].
    apply B in H. lia.
  - destruct (Nat.eq_dec rule0 rule) as [->|D].
    + rewrite set_sheetRef_same in H. injection H as <-.
      apply in_or_app. right. now left.
    + rewrite set_sheetRef_other in H by exact D.
      apply in_or_app. left. eapply A, H.
  - destruct (Nat.eq_dec rule0 rule) as [->|D].
    + rewrite set_sheetRef_same in H. injection H as <-.
      intros H. now apply Fresh, F.
    + rewrite set_sheetRef_other in H by exact D. eapply A, H.
  - intros r r' e H H'.
    destruct (Nat.eq_dec r rule) as [->|D], (Nat.eq_dec r' rule) as [->|D'];
      [reflexivity| | |].
    + rewrite set_sheetRef_same in H. injection H as <-.
      rewrite set_sheetRef_other in H' by exact D'.
      exfalso. eapply Fresh, A, H'.
    + rewrite set_sheetRef_same in H'. injection H' as <-.
      rewrite set_sheetRef_other in H by exact D.
      exfalso. eapply Fresh, A, H.
    + rewrite set_sheetRef_other in H, H' by assumption.
      eapply I; eassumption.
  - intros e H. apply in_app_or in H as [H|[<-|[]]].
    + destruct (L e H) as [H'|[r H']]; [now left|right].
      exists r. rewrite set_sheetRef_other; [exact H'|].
      intros ->. congruence.
    + right. exists rule. apply set_sheetRef_same.
  - intros e H. apply in_or_app. left. now apply F.
Qed.

Lemma owned_styleSheet foreign rule state :
  owned foreign state -> owned foreign (snd (styleSheet rule state)).
Proof.
  intros H. destruct (sheetRef state rule) as [element|] eqn:E.
  - unfold styleSheet. now rewrite E.
  - now apply owned_addStyleElement.
Qed.

Lemma produce_owned foreign rule properties state :
  owned foreign state ->
  owned foreign (fst (produce rule properties state))
  /\ snd (produce rule properties state) = rendered (Render rule properties).
Proof.
  intros H. unfold produce, rendered.
  destruct (render properties) as [threw|write threw]; [now split|].
  pose proof (owned_styleSheet foreign rule state H) as H'.
  destruct (styleSheet rule state) as [element state']. now split.
Qed.

Lemma renderProperties_owned foreign rule properties state :
  owned foreign state ->
  owned foreign (fst (renderProperties rule properties state))
  /\ snd (renderProperties rule properties state)
     = rendered (Render rule properties).
Proof.
  intros H. unfold renderProperties.
  destruct (sheetRef state rule) as [element|].
  - rewrite Producer.clearProperties_empty.
    apply produce_owned, owned_write_sheet, H.
  - now apply produce_owned.
Qed.

Lemma removeStyle_owned foreign rule state :
  owned foreign state ->
  owned foreign (fst (removeStyle rule state))
  /\ snd (removeStyle rule state) = Returned.
Proof.
  intros H. unfold removeStyle.
  destruct (sheetRef state rule) as [element|] eqn:E; [|now split].
  destruct H as (N & B & A & I & L & F).
  destruct (A rule element E) as [At NF].
  unfold remove. rewrite (existsb_eqb_In _ _ At).
  split; [|reflexivity].
  unfold owned. cbn [fst document children created sheetRef].
  repeat split.
  - now apply NoDup_filter.
  - intros e H. apply In_without in H as [H _]. now apply B.
  - destruct (Nat.eq_dec rule0 rule) as [->|D].
    + now rewrite set_sheetRef_same in H.
    + rewrite set_sheetRef_other in H by exact D.
      apply In_without. split; [eapply A, H|].
      intros ->. apply D. eapply I; eassumption.
  - destruct (Nat.eq_dec rule0 rule) as [->|D].
    + now rewrite set_sheetRef_same in H.
    + rewrite set_sheetRef_other in H by exact D. eapply A, H.
  - intros r r' e H H'.
    destruct (Nat.eq_dec r rule) as [->|D];
      [now rewrite set_sheetRef_same in H|].
    destruct (Nat.eq_dec r' rule) as [->|D'];
      [now rewrite set_sheetRef_same in H'|].
    rewrite set_sheetRef_other in H, H' by assumption.
    eapply I; eassumption.
  - intros e H. apply In_without in H as [H Ne].
    destruct (L e H) as [H'|[r H']]; [now left|right].
    exists r. rewrite set_sheetRef_other; [exact H'|].
    intros ->. congruence.
  - intros e H. apply In_without. split; [now apply F|].
    intros ->. now apply NF.
Qed.

Lemma run_job_owned foreign job state :
  owned foreign state ->
  owned foreign (fst (run_job job state))
  /\ snd (run_job job state) = rendered job.
Proof.
  destruct job as [rule properties|rule].
  - apply renderProperties_owned.
  - apply removeStyle_owned.
Qed.

Lemma run_jobs_owned foreign jobs :
  forall state,
    owned foreign state ->
    owned foreign (fst (run_jobs jobs state))
    /\ snd (run_jobs jobs state) = map rendered jobs.
Proof.
  induction jobs as [|job jobs IH]; intros state H; [now split|].
  cbn [run_jobs map].
  destruct (run_job_owned foreign job state H) as [H1 E1].
  destruct (run_job job state) as [state' how].
  destruct (IH state' H1) as [H2 E2].
  destruct (run_jobs jobs state') as [state'' hows].
  cbn [fst snd] in *. split; [exact H2 | now rewrite E1, E2].
Qed.

Lemma initial_owned (document0 : Document) :
  NoDup (children document0) ->
  (forall element, In element (children document0) ->
                   element < created document0) ->
  owned (children document0) (initial document0).
Proof.
  intros N B. unfold owned, initial. cbn.
  repeat split; auto; try discriminate.
Qed.

(** The state the jobs leave, run from a document no rule has a style
    sheet in. *)
Definition state_after (document0 : Document) (jobs : list Job) : State :=
  fst (run_jobs jobs (initial document0)).

Definition job_rule (job : Job) : nat :=
  match job with
  | Render rule _ => rule
  | Remove rule => rule
  end.

Lemma state_after_owned (document0 : Document) (jobs : list Job) :
  NoDup (children document0) ->
  (forall element, In element (children document0) ->
                   element < created document0) ->
  owned (children document0) (state_after document0 jobs).
Proof.
  intros N B. apply run_jobs_owned. now apply initial_owned.
Qed.




(** X22: a job of one rule leaves the style sheets of the other rules
    alone: another rule that holds a style sheet holds the same element
    after the job, still a child of [parent], with the same rules. *)
Theorem rules_do_not_interfere (document0 : Document) (jobs : list Job)
        (job : Job) (rule' element' : nat) :
  NoDup (children document0) ->
  (forall element, In element (children document0) ->
                   element < created document0) ->
  job_rule job <> rule' ->
  sheetRef (state_after document0 jobs) rule' = Some element' ->
  sheetRef (fst (run_job job (state_after document0 jobs))) rule'
  = Some element'
  /\ In element'
        (children
           (document (fst (run_job job (state_after document0 jobs)))))
  /\ sheets (document (fst (run_job job (state_after document0 jobs))))
            element'
     = sheets (document (state_after document0 jobs)) element'.
Proof.
  intros N0 B0 D E'.
  destruct (state_after_owned document0 jobs N0 B0)
    as (N & B & A & I & L & F).
  set (state := state_after document0 jobs) in *.
  destruct (A rule' element' E') as [At' _].
  assert (O : forall rule element,
             rule <> rule' -> sheetRef state rule = Some element ->
             element' <> element).
  { intros rule element Dr E ->. apply Dr. eapply I; eassumption. }
  assert (S : forall element sheet,
             element' <> element ->
             set_sheet element sheet (sheets (document state)) element'
             = sheets (document state) element').
  { intros element sheet Ne. unfold set_sheet.
    now destruct (Nat.eqb_spec element' element). }
  assert (P : forall properties rule state1,
             rule <> rule' ->
             children (document state1) = children (document state) ->
             created (document state1) = created (document state) ->
             sheetRef state1 = sheetRef state ->
             sheets (document state1) element'
             = sheets (document state) element' ->
             sheetRef (fst (produce rule properties state1)) rule'
             = Some element'
             /\ In element'
                  (children (document (fst (produce rule properties state1))))
             /\ sheets (document (fst (produce rule properties state1)))
                       element'
                = sheets (document state) element').
  { intros properties rule state1 Dr C1 K1 R1 S1. unfold produce.
    destruct (render properties) as [threw|write threw].
    - cbn [fst]. now rewrite R1, C1.
    - unfold styleSheet. rewrite R1.
      destruct (sheetRef state rule) as [element|] eqn:E.
      + cbn [fst write_sheet document children sheets sheetRef].
        rewrite R1, C1. repeat split; [exact E' | exact At' |].
        unfold set_sheet.
        destruct (Nat.eqb_spec element' element) as [Q|_]; [|exact S1].
        exfalso. exact (O rule element Dr E Q).
      + cbn [addStyleElement fst write_sheet document children sheets
             created sheetRef].
        rewrite set_sheetRef_other by (intros Q; now apply Dr).
        rewrite C1, K1. repeat split; [exact E' | |].
        * apply in_or_app. now left.
        * assert (Ne : element' <> created (document state)).
          { intros Q. apply B in At'. lia. }
          unfold set_sheet.
          destruct (Nat.eqb_spec element' (created (document state)));
            [contradiction | exact S1]. }
  destruct job as [rule properties|rule]; cbn [job_rule run_job] in *.
  - unfold renderProperties.
    destruct (sheetRef state rule) as [element|] eqn:E.
    + rewrite Producer.clearProperties_empty.
      apply P; try reflexivity; [exact D|].
      cbn [write_sheet document sheets]. apply S. now apply (O rule).
    + now apply P.
  - unfold removeStyle.
    destruct (sheetRef state rule) as [element|] eqn:E;
      [|now repeat split].
    destruct (A rule element E) as [At _].
    unfold remove. rewrite (existsb_eqb_In _ _ At).
    cbn [fst document children sheets sheetRef].
    rewrite set_sheetRef_other by (intros Q; now apply D).
    repeat split; [exact E'|].
    apply In_without. split; [exact At'|]. now apply (O rule).
Qed.

(** What no sequence of jobs leads to: the remove job of a rule whose
    element is no child of [parent] throws. *)
Example removeStyle_of_detached_throws :
  forall sheets0 : nat -> CSSStyleSheet,
    snd (removeStyle 0
           {| document := {| created := 1; children := [];
                             sheets := sheets0 |};
              sheetRef := fun _ => Some 0 |})
    = DomError.
Proof. reflexivity. Qed.

End Document.

Arguments Build_Document {CSSRule} created children sheets.
Arguments created {CSSRule} d.
Arguments children {CSSRule} d.
Arguments sheets {CSSRule} d element.
Arguments Build_State {CSSRule} document sheetRef.
Arguments document {CSSRule} s.
Arguments sheetRef {CSSRule} s rule.
Arguments Untouched {CSSRule} threw.
Arguments Written {CSSRule} write threw.
Arguments Render {StypProperties} rule properties.
Arguments Remove {StypProperties} rule.
Arguments initial {CSSRule} document.
Arguments removeStyle {CSSRule} rule state.
Arguments run_job {CSSRule StypProperties} render job state.
Arguments run_jobs {CSSRule StypProperties} render jobs state.
Arguments state_after {CSSRule StypProperties} render document0 jobs.

(** A renderer that appends one rule per render and never throws, and a
    [parent] that has one child of its own. *)
Definition appending (properties : nat) : Rendering nat :=
  Written (fun sheet => sheet ++ [properties]) false.

Definition head : Document nat :=
  {| created := 1; children := [0]; sheets := fun _ => [] |}.



(** X22 on two rules that rendered: the first renders again, the second
    keeps its element. *)
Lemma rules_do_not_interfere_witness :
  sheetRef (state_after appending head [Render 0 7; Render 1 8]) 1 = Some 2
  /\ sheetRef (fst (run_job appending (Render 0 9)
                      (state_after appending head [Render 0 7; Render 1 8])))
              1
     = Some 2.
Proof.
  split; [reflexivity|].
  refine (proj1 (rules_do_not_interfere nat nat appending head
                   [Render 0 7; Render 1 8] (Render 0 9) 1 2 _ _ _ _)).
  - repeat constructor. intros [].
  - intros element [<-|[]]. apply Nat.lt_0_1.
  - discriminate.
  - reflexivity.
Defined.

(** The children of [parent] after those jobs, and the rules of the two
    style sheets. *)
Example children_after_jobs :
  children (document (state_after appending head [Render 0 7; Render 1 8]))
  = [0; 1; 2]
  /\ children
       (document
          (fst (removeStyle 0
                  (state_after appending head [Render 0 7; Render 1 8]))))
     = [0; 2]
  /\ sheets (document (state_after appending head [Render 0 7; Render 1 8]))
            1 = [7]
  /\ sheets (document (state_after appending head [Render 0 7; Render 1 8]))
            2 = [8].
Proof. repeat split. Qed.

End ProducerDom.

Module RenderChain.

Import Selector.
Open Scope string_scope.

Section Chain.

(** The document with its style sheets, and a place in it
    ([CSSStyleSheet | CSSRule]). *)
Variable S : Type.
Variable Target : Type.
Variable StypProperties : Type.

(** [isCSSRuleGroup] of [render.impl] and [stypSelectorText] with the
    format of the production, neither among the sources; what
    [target.insertRule(text, target.cssRules.length)] followed by
    [target.cssRules[ruleIndex]] and [cssRule.style.cssText = css] do to
    the document; the property [$$css]. *)
Variable isCSSRuleGroup : Target -> bool.
Variable selectorText : Normalized -> string.
Variable insertRule : Target -> string -> S -> Target * S.
Variable set_cssText : Target -> string -> S -> S.
Variable css_of : StypProperties -> option string.

(** What a producer is made from; the style sheet is the same for all
    producers of one render. *)
Record Production : Type := {
  target : Target;
  selector : Normalized
}.

(** [StypRender.Options]. *)
Record Options : Type := {
  o_target : option Target;
  o_selector : option Normalized
}.

(** A [StypRender.Function] as [renderAt] builds them: of its producer it
    reads the target and the selector. *)
Definition Render : Type := Production -> StypProperties -> S -> S.

(** The [StyleProducer] a renderer receives. *)
Record StyleProducer : Type := {
  production : Production;
  render : StypProperties -> option Options -> S -> S;
  addRule : option Normalized -> S -> Target * S
}.

(** [styleProducer(rule, render, production)]. *)
Definition styleProducer (next : Render) (production : Production)
  : StyleProducer :=
  {| production := production;
     render := fun properties options =>
       match options with
       | None => next production properties
       | Some o =>
           next {| target := match o_target o with
                             | Some t => t
                             | None => target production
                             end;
                   selector := match o_selector o with
                               | Some sel => sel
                               | None => selector production
                               end |}
                properties
       end;
     addRule := fun _selector s =>
       let sel := match _selector with
                  | Some sel => sel
                  | None => selector production
                  end in
       if isCSSRuleGroup (target production)
       then insertRule (target production) (selectorText sel ++ "{}") s
       else (target production, s) |}.

(** [spec.render] of a renderer. *)
Definition Renderer : Type := StyleProducer -> StypProperties -> S -> S.

(** [renderAt(index)] over the renderers from [index] on; past the last
    one the next render is [noop]. *)
Fixpoint renderAt (specs : list Renderer) : Render :=
  fun production properties =>
    match specs with
    | [] => fun s => s
    | spec :: rest => spec (styleProducer (renderAt rest) production)
                           properties
    end.

(** [stypRenderText] of [text.render.ts]. *)
Definition stypRenderText : Renderer :=
  fun producer properties s =>
    match truthy (css_of properties) with
    | None => render producer properties None s
    | Some css =>
        let (cssRule, s1) := addRule producer None s in
        render producer properties
               (Some {| o_target := Some cssRule; o_selector := None |})
               (set_cssText cssRule css s1)
    end.

Lemma idle_renderers_are_skipped (pre rest : list Renderer)
        (properties : StypProperties) :
  Forall (fun spec : Renderer =>
            forall producer s,
              spec producer properties s
              = render producer properties None s) pre ->
  forall production s,
    renderAt (pre ++ rest) production properties s
    = renderAt rest production properties s.
Proof.
  induction 1 as [|spec pre Hspec _ IH]; intros production s.
  - reflexivity.
  - cbn [app renderAt]. rewrite Hspec. cbn [render styleProducer].
    apply IH.
Qed.

Lemma stypRenderText_idle (properties : StypProperties) :
  truthy (css_of properties) = None ->
  forall producer s,
    stypRenderText producer properties s = render producer properties None s.
Proof. intros H producer s. unfold stypRenderText. now rewrite H. Qed.

(** X21: [stypRenderText] in the chain.  For properties without raw text,
    any number of [stypRenderText] ahead of the chain changes nothing.
    With raw text and a rule group as target, one rule [selector{}] is
    inserted, it gets the text, and the rest of the chain renders with
    that rule as target; with a target that is no group, nothing is
    inserted and the target's own text is set. *)
Theorem stypRenderText_chain (k : nat) (rest : list Renderer)
        (properties : StypProperties) (production : Production) (s : S)
        (css : string) :
  (truthy (css_of properties) = None ->
   renderAt (repeat stypRenderText k ++ rest) production properties s
   = renderAt rest production properties s)
  /\ (truthy (css_of properties) = Some css ->
      renderAt (stypRenderText :: rest) production properties s
      = if isCSSRuleGroup (target production)
        then let (cssRule, s1) :=
               insertRule (target production)
                          (selectorText (selector production) ++ "{}") s in
             renderAt rest {| target := cssRule;
                              selector := selector production |}
                      properties (set_cssText cssRule css s1)
        else renderAt rest production properties
                      (set_cssText (target production) css s)).
Proof.
  split.
  - intros H. apply idle_renderers_are_skipped.
    induction k as [|k IH]; constructor; auto.
    now apply stypRenderText_idle.
  - intros H. cbn [renderAt]. unfold stypRenderText. rewrite H.
    cbn [addRule render styleProducer o_target o_selector].
    destruct (isCSSRuleGroup (target production)).
    + destruct (insertRule _ _ s) as [cssRule s1]. reflexivity.
    + destruct production; reflexivity.
Qed.

End Chain.

(** A document that is the list of the texts written so far, where target
    0 is the style sheet and every other target a style rule. *)
Definition sample_chain (specs : list (Renderer (list string) nat
                                                (option string)))
  : Render (list string) nat (option string) :=
  renderAt (list string) nat (option string)
           (fun t => Nat.eqb t 0) (fun _ => "a")
           (fun _ text s => (S (List.length s), s ++ [text])%list)
           specs.

Definition sample_text : Renderer (list string) nat (option string) :=
  stypRenderText (list string) nat (option string)
                 (fun _ css s => (s ++ [css])%list) (fun p => p).

(** X21, on that document: the raw text "color: red" goes into a new rule
    [a{}] of the style sheet, and the renderer after it, which asks for a
    rule, gets that same rule and inserts none. *)
Lemma stypRenderText_chain_witness :
  sample_chain [sample_text;
                fun producer _ s =>
                  snd (addRule (list string) nat (option string) producer
                               None s)]
               {| target := 0; selector := [] |} (Some "color: red") []
  = ["a{}"; "color: red"].
Proof.
  exact (proj2 (stypRenderText_chain (list string) nat (option string)
                  (fun t => Nat.eqb t 0) (fun _ => "a")
                  (fun _ text s => (S (List.length s), s ++ [text])%list)
                  (fun _ css s => (s ++ [css])%list) (fun p => p)
                  0
                  [fun producer _ s =>
                     snd (addRule (list string) nat (option string) producer
                                  None s)]
                  (Some "color: red") {| target := 0; selector := [] |} []
                  "color: red") eq_refl).
Defined.

End RenderChain.
